(** * The multi-stream synchronization engine of the video player

    A shallow embedding of [SynchronizationManager] (the class that keeps
    several [<video>] elements on the timeline of the first registered one)
    and the properties its specification states about it.

    Modelling decisions, all visible in the definitions below:

    - A video element is referenced by identity.  Elements are natural
      numbers and the page maps each of them to the properties the engine
      reads and writes ([currentTime], [buffered], [duration]); two registry
      slots holding the same number are the same element.
    - Times are finite JavaScript numbers.  Every finite double is a
      rational and the comparisons the engine performs are exact on them,
      so the positions of the page and of the store are rationals ([Q]);
      [===] on numbers is [Qeq_bool].  The two arithmetic operations of the
      class, the subtraction of the drift test and the product that gives
      the delay of the timer, are IEEE 754 operations: their operands are
      converted to binary64 floats ([double], which loses nothing on a
      double), and the operation is the one of the Standard Library's
      specification of floating-point arithmetic, rounding to nearest,
      ties to even.
    - The engine is single threaded and every handler runs to completion: a
      handler is a function from worlds to worlds.  What a handler does to
      its surroundings (calls of the state manager, callback invocations,
      writes of an element's position, timers) is appended to a trace.
    - A handler that would raise an uncaught [TypeError] returns [None].

    After the engine the file embeds the list functions of the interactive
    transcript and of the analytics manager that find the cue and the
    chapter under the playhead, the fullscreen manager and the configuration
    validator, each in a module of its own, and proves what their code
    shows. *)

From Stdlib Require Import QArith Qminmax Qabs Lia SpecFloat.
From stdpp Require Import base option list functions gmap strings pretty.

(** ** Collaborators *)

(** Modelled from the spec: the [PLAY_STATES] enumeration of [constants.js],
    which is not part of the sources at hand.  The specification lists the
    play states as PLAYING, PAUSED, WAITING and FINISHED. *)
Inductive PlayState : Set := PLAYING | PAUSED | WAITING | FINISHED.

#[global] Instance PlayState_eq_dec : EqDecision PlayState.
Proof. solve_decision. Defined.

(** [a === b] on play states. *)
Definition PlayState_eqb (a b : PlayState) : bool := bool_decide (a = b).

(** A registered [<video>] element, an identity. *)
Abbreviation Element := nat (only parsing).

(** A ready callback, referenced by identity.  Its body is not modelled: a
    call is recorded in the trace, and a callback is taken not to call back
    into the engine while it runs. *)
Abbreviation Callback := nat (only parsing).

(** The properties of an [HTMLVideoElement] the engine touches.  [buffered]
    is the element's [TimeRanges]: [buffered.length] is the length of the
    list, [buffered.start(i)] and [buffered.end(i)] the components of its
    [i]-th pair. *)
Record HTMLVideo : Type := mkVideo {
  currentTime : Q;
  buffered : list (Q * Q);
  duration : Q
}.

Definition with_currentTime (t : Q) (v : HTMLVideo) : HTMLVideo :=
  {| currentTime := t; buffered := buffered v; duration := duration v |}.

Module StateManager.

(** Modelled from the spec: the state object of the playback state store
    ([state-manager.js] is not part of the sources at hand).  These are the
    fields the specification lists as read by the engine. *)
Record State : Type := mkState {
  playState : PlayState;
  position : Q;
  duration : Q;
  bufferPosition : Q;
  trimStart : option Q;   (* [None]: undefined *)
  trimEnd : option Q;
  live : bool
}.

(** Modelled from the spec: the four setters of the store.  Each one
    stores its first argument in the field it is named after. *)
Definition setPlayState (p : PlayState) (s : State) : State :=
  {| playState := p; position := position s; duration := duration s;
     bufferPosition := bufferPosition s; trimStart := trimStart s;
     trimEnd := trimEnd s; live := live s |}.

Definition setPosition (t : Q) (s : State) : State :=
  {| playState := playState s; position := t; duration := duration s;
     bufferPosition := bufferPosition s; trimStart := trimStart s;
     trimEnd := trimEnd s; live := live s |}.

Definition setDuration (d : Q) (s : State) : State :=
  {| playState := playState s; position := position s; duration := d;
     bufferPosition := bufferPosition s; trimStart := trimStart s;
     trimEnd := trimEnd s; live := live s |}.

Definition setBufferPosition (b : Q) (s : State) : State :=
  {| playState := playState s; position := position s; duration := duration s;
     bufferPosition := b; trimStart := trimStart s;
     trimEnd := trimEnd s; live := live s |}.

End StateManager.

(** ** The engine's own state *)

(** An entry [{callback, once}] of [_readyCallbacks]. *)
Record ReadyEntry : Type := mkEntry { callback : Callback; once : bool }.

Record SynchronizationManager : Type := mkManager {
  _videos : list Element;
  _videosWaiting : gset Element;
  _videoBufferPositions : gmap Element Q;
  _readyCallbacks : list ReadyEntry;
  (* [None] stands for both [undefined] (never assigned) and [null]
     (cleared); the class only ever tests the field for truthiness, and
     every play state is a non-empty string, hence truthy. *)
  backupPlayState : option PlayState
}.

(** A JavaScript number: a binary64 float. *)
Definition Number : Type := spec_float.

(** What a handler does to its surroundings, in the order it does it. *)
Inductive Effect : Type :=
| StoreSetPlayState (p : PlayState) (userAction : option bool)
| StoreSetPosition (t : Q) (userSeek : option bool)
| StoreSetDuration (d : Q)
| StoreSetBufferPosition (b : Q)
| CallbackCall (cb : Callback)
| CurrentTimeWrite (video : Element) (t : Q)
| WaitingAdd (video : Element)
| SetTimeout (ms : Number).

Record World : Type := mkWorld {
  this : SynchronizationManager;
  state : StateManager.State;      (* [this._stateManager.state] *)
  page : Element -> HTMLVideo;
  effects : list Effect
}.

(** The updates of the three mutable parts of a world. *)
Definition with_this (m : SynchronizationManager) (w : World) : World :=
  {| this := m; state := state w; page := page w; effects := effects w |}.

Definition with_state (s : StateManager.State) (w : World) : World :=
  {| this := this w; state := s; page := page w; effects := effects w |}.

Definition emit (e : Effect) (w : World) : World :=
  {| this := this w; state := state w; page := page w;
     effects := effects w ++ [e] |}.

(** [this._stateManager.setPlayState(p, userAction)] and its siblings: the
    call is recorded and the store updated. *)
Definition setPlayState (p : PlayState) (userAction : option bool) (w : World) : World :=
  emit (StoreSetPlayState p userAction)
       (with_state (StateManager.setPlayState p (state w)) w).

Definition setPosition (t : Q) (userSeek : option bool) (w : World) : World :=
  emit (StoreSetPosition t userSeek)
       (with_state (StateManager.setPosition t (state w)) w).

Definition setDuration (d : Q) (w : World) : World :=
  emit (StoreSetDuration d)
       (with_state (StateManager.setDuration d (state w)) w).

Definition setBufferPosition (b : Q) (w : World) : World :=
  emit (StoreSetBufferPosition b)
       (with_state (StateManager.setBufferPosition b (state w)) w).

(** [video.currentTime = t]. *)
Definition writeCurrentTime (video : Element) (t : Q) (w : World) : World :=
  emit (CurrentTimeWrite video t)
       {| this := this w; state := state w;
          page := <[video := with_currentTime t (page w video)]> (page w);
          effects := effects w |}.

(** ** JavaScript operators on numbers *)

(** [a < b] *)
Definition Qltb (a b : Q) : bool := negb (Qle_bool b a).

(** [x && c(x)] for a number [x] that may be undefined: [undefined] and [0]
    are falsy.  The result is [Some x] when the conjunction is truthy. *)
Definition number_and (x : option Q) (c : Q -> bool) : option Q :=
  match x with
  | Some q => if negb (Qeq_bool q 0) && c q then Some q else None
  | None => None
  end.

(** *** Arithmetic

    [-], [*] and [Math.abs] compute on doubles.  The operations are those
    of [SpecFloat] at precision 53 with infinities at exponent 1024, that
    is binary64 with rounding to nearest, ties to even. *)

(** An integer as a float with exponent 0; the mantissa is not bounded. *)
Definition integer (z : Z) : Number :=
  match z with
  | Z0 => S754_zero false
  | Zpos p => S754_finite false p 0
  | Zneg p => S754_finite true p 0
  end.

(** The number a rational stands for: the quotient of its numerator and
    its denominator, rounded once.  A rational that is a double is
    unchanged; any other one becomes the nearest double, as the decimal
    literal [0.1] does. *)
Definition double (q : Q) : Number :=
  SFdiv 53 1024 (integer (Qnum q)) (integer (Zpos (Qden q))).

(** [a - b] *)
Definition minus (a b : Number) : Number := SFsub 53 1024 a b.

(** [a * b] *)
Definition times (a b : Number) : Number := SFmul 53 1024 a b.

(** [Math.abs(a)] *)
Definition Math_abs (a : Number) : Number := SFabs a.

(** [a > b] *)
Definition greater (a b : Number) : bool := SFltb b a.

(** [Math.min(...values)]; [None] stands for the [Infinity] that [Math.min]
    returns when it is given no argument. *)
Definition Math_min (values : list Q) : option Q :=
  foldr (fun x acc => match acc with
                      | None => Some x
                      | Some m => Some (Qmin x m)
                      end) None values.

(** [Array.prototype.indexOf]: the first index holding [x], [None] for -1. *)
Fixpoint indexOf (l : list Element) (x : Element) : option nat :=
  match l with
  | [] => None
  | y :: r => if decide (y = x) then Some 0%nat else S <$> indexOf r x
  end.

(** [filter] and [forEach] with a callback that may raise. *)
Fixpoint filterM {A} (p : A -> option bool) (l : list A) : option (list A) :=
  match l with
  | [] => Some []
  | x :: r => b ← p x; r' ← filterM p r; Some (if b : bool then x :: r' else r')
  end.

Fixpoint forEachM {A S} (f : A -> S -> option S) (l : list A) (s : S) : option S :=
  match l with
  | [] => Some s
  | x :: r => s' ← f x s; forEachM f r s'
  end.

(** ** The class [SynchronizationManager] *)

Definition set_videos (l : list Element) (m : SynchronizationManager) :=
  {| _videos := l; _videosWaiting := _videosWaiting m;
     _videoBufferPositions := _videoBufferPositions m;
     _readyCallbacks := _readyCallbacks m;
     backupPlayState := backupPlayState m |}.

Definition set_videosWaiting (s : gset Element) (m : SynchronizationManager) :=
  {| _videos := _videos m; _videosWaiting := s;
     _videoBufferPositions := _videoBufferPositions m;
     _readyCallbacks := _readyCallbacks m;
     backupPlayState := backupPlayState m |}.

Definition set_videoBufferPositions (b : gmap Element Q) (m : SynchronizationManager) :=
  {| _videos := _videos m; _videosWaiting := _videosWaiting m;
     _videoBufferPositions := b;
     _readyCallbacks := _readyCallbacks m;
     backupPlayState := backupPlayState m |}.

Definition set_readyCallbacks (l : list ReadyEntry) (m : SynchronizationManager) :=
  {| _videos := _videos m; _videosWaiting := _videosWaiting m;
     _videoBufferPositions := _videoBufferPositions m;
     _readyCallbacks := l;
     backupPlayState := backupPlayState m |}.

Definition set_backupPlayState (b : option PlayState) (m : SynchronizationManager) :=
  {| _videos := _videos m; _videosWaiting := _videosWaiting m;
     _videoBufferPositions := _videoBufferPositions m;
     _readyCallbacks := _readyCallbacks m;
     backupPlayState := b |}.

(** [registerVideo(video)]: [this._videos.push(video)].  The listeners it
    adds are the handlers below; a notification of an element is the
    application of the handler to it. *)
Definition registerVideo (video : Element) (w : World) : World :=
  with_this (set_videos (_videos (this w) ++ [video]) (this w)) w.

(** [unregisterVideo(video)]: the registry is filtered and the element is
    deleted from the waiting set.  The method then removes the nine
    listeners and touches no other field. *)
Definition unregisterVideo (video : Element) (w : World) : World :=
  let w := with_this (set_videos
             (List.filter (fun x => bool_decide (x <> video)) (_videos (this w)))
             (this w)) w in
  with_this (set_videosWaiting (_videosWaiting (this w) ∖ {[video]}) (this w)) w.

(** [onVideosReady(callback, once = false)]; [None] is the omitted argument. *)
Definition onVideosReady (cb : Callback) (once_arg : option bool) (w : World) : World :=
  with_this (set_readyCallbacks
               (_readyCallbacks (this w) ++
                  [{| callback := cb; once := default false once_arg |}])
               (this w)) w.

(** [isMaster(video)]: [this._videos.indexOf(video) === 0]. *)
Definition isMaster (video : Element) (w : World) : bool :=
  bool_decide (indexOf (_videos (this w)) video = Some 0%nat).

(** [_anyWaiting()]: [this._videosWaiting.size > 0]. *)
Definition _anyWaiting (w : World) : bool :=
  (0 <? size (_videosWaiting (this w)))%nat.

(** [_videoTimeUpdate(e)], [video] being [e.target]. *)
Definition _videoTimeUpdate (video : Element) (w : World) : World :=
  if isMaster video w && negb (_anyWaiting w) then
    let now := currentTime (page w video) in
    match number_and (StateManager.trimStart (state w)) (fun ts => Qltb now ts) with
    | Some ts => setPosition ts (Some false) w
    | None =>
        match number_and (StateManager.trimEnd (state w)) (fun te => Qltb te now) with
        | Some te => setPosition te (Some false) w
        | None => setPosition now (Some false) w
        end
    end
  else w.

(** [_videoEnded(e)] *)
Definition _videoEnded (video : Element) (w : World) : World :=
  if isMaster video w && negb (_anyWaiting w)
  then setPlayState FINISHED None w
  else w.

(** [_videoDurationChanged(e)] *)
Definition _videoDurationChanged (video : Element) (w : World) : World :=
  if isMaster video w then setDuration (duration (page w video)) w else w.

(** [_backupPlayState()] *)
Definition _backupPlayState (w : World) : World :=
  let playState := StateManager.playState (state w) in
  if negb (PlayState_eqb playState WAITING)
  then with_this (set_backupPlayState (Some playState) (this w)) w
  else w.

(** [_restorePlayState()] *)
Definition _restorePlayState (w : World) : World :=
  match backupPlayState (this w) with
  | Some backup =>
      let w := if PlayState_eqb (StateManager.playState (state w)) WAITING
               then setPlayState backup (Some false) w
               else w in
      with_this (set_backupPlayState None (this w)) w
  | None => w
  end.

(** [setWaiting(video)].  [WaitingAdd] records [this._videosWaiting.add]. *)
Definition setWaiting (video : Element) (w : World) : World :=
  let w := if negb (_anyWaiting w) then _backupPlayState w else w in
  let w := emit (WaitingAdd video)
             (with_this (set_videosWaiting
                           ({[video]} ∪ _videosWaiting (this w)) (this w)) w) in
  if negb (PlayState_eqb (StateManager.playState (state w)) FINISHED)
  then setPlayState WAITING None w
  else w.

(** [_videoWaiting(e)] *)
Definition _videoWaiting (video : Element) (w : World) : World :=
  setWaiting video w.

(** The loop of [_videoSeeking]: [true] when it returns from inside the
    loop, having found [seekTime] in a buffered range. *)
Fixpoint seekTimeBuffered (seekTime : Q) (ranges : list (Q * Q)) : bool :=
  match ranges with
  | [] => false
  | (range_start, range_end) :: rest =>
      if Qle_bool range_start seekTime && Qltb seekTime range_end
      then true
      else seekTimeBuffered seekTime rest
  end.

(** [_videoSeeking(e)] *)
Definition _videoSeeking (video : Element) (w : World) : World :=
  let seekTime := currentTime (page w video) in
  if seekTimeBuffered seekTime (buffered (page w video))
  then w
  else setWaiting video w.

(** [_videoReady(e)].  [Set.prototype.delete] answers whether the element
    was a member. *)
Definition _videoReady (target : Element) (w : World) : World :=
  let deleted := bool_decide (target ∈ _videosWaiting (this w)) in
  let w := with_this (set_videosWaiting
                        (_videosWaiting (this w) ∖ {[target]}) (this w)) w in
  if deleted && negb (_anyWaiting w) then
    let w := _restorePlayState w in
    let w := foldl (fun w entry => emit (CallbackCall (callback entry)) w)
                   w (_readyCallbacks (this w)) in
    with_this (set_readyCallbacks
                 (List.filter (fun entry => negb (once entry))
                              (_readyCallbacks (this w)))
                 (this w)) w
  else w.

(** The loop of [_videoProgress], entered with [i = n - 1]: the end of the
    last range that starts at or before [now], if there is one. *)
Fixpoint currentBuffer (ranges : list (Q * Q)) (now : Q) (n : nat) : option Q :=
  match n with
  | O => None
  | S i =>
      match ranges !! i with
      | Some (range_start, range_end) =>
          if Qle_bool range_start now then Some range_end
          else currentBuffer ranges now i
      | None => currentBuffer ranges now i
      end
  end.

(** [_videoProgress(e)] *)
Definition _videoProgress (video : Element) (w : World) : World :=
  let ranges := buffered (page w video) in
  if (0 <? length ranges)%nat then
    let w :=
      match currentBuffer ranges (currentTime (page w video)) (length ranges) with
      | Some range_end =>
          with_this (set_videoBufferPositions
                       (<[video := range_end]> (_videoBufferPositions (this w)))
                       (this w)) w
      | None => w
      end in
    if (0 <? size (_videoBufferPositions (this w)))%nat then
      match Math_min (map_to_list (_videoBufferPositions (this w))).*2 with
      | Some globalBuffer => setBufferPosition globalBuffer w
      | None => w   (* not reached: the map is not empty *)
      end
    else w
  else w.

(** The fields as the constructor initialises them, before its call of
    [_syncVideos]; [backupPlayState] is not assigned there. *)
Definition fresh (stateManager : StateManager.State)
                 (page : Element -> HTMLVideo) : World :=
  {| this := {| _videos := []; _videosWaiting := ∅;
                _videoBufferPositions := ∅; _readyCallbacks := [];
                backupPlayState := None |};
     state := stateManager; page := page; effects := [] |}.

Section Constants.

(** [SYNC_INTERVAL] and [SYNC_DIFF_THRESHOLD] of [constants.js], which is
    not part of the sources at hand: two number literals, read with
    [double] where they are used. *)
Variable SYNC_INTERVAL : Q.
Variable SYNC_DIFF_THRESHOLD : Q.

(** [master.currentTime], where [master] is [this._videos[0]]: reading a
    property of [undefined] raises. *)
Definition master_currentTime (master : option Element) (w : World) : option Q :=
  m ← master; Some (currentTime (page w m)).

(** [_syncVideos()] *)
Definition _syncVideos (w : World) : option World :=
  w' ← (if negb (_anyWaiting w) && negb (StateManager.live (state w)) then
          let master := _videos (this w) !! 0%nat in
          if PlayState_eqb (StateManager.playState (state w)) PAUSED then
            drifted ← filterM (fun video =>
                         m ← master_currentTime master w;
                         Some (negb (Qeq_bool (currentTime (page w video)) m)))
                       (_videos (this w));
            forEachM (fun video w =>
                        m ← master_currentTime master w;
                        Some (writeCurrentTime video m w))
                     drifted w
          else
            drifted ← filterM (fun video =>
                         m ← master_currentTime master w;
                         Some (greater
                                 (Math_abs (minus (double (currentTime (page w video)))
                                                  (double m)))
                                 (double SYNC_DIFF_THRESHOLD)))
                       (_videos (this w));
            forEachM (fun video w =>
                        let w := setWaiting video w in
                        m ← master_currentTime master w;
                        Some (writeCurrentTime video m w))
                     drifted w
        else Some w);
  Some (emit (SetTimeout (times (double SYNC_INTERVAL) (double 1000))) w').

(** [new SynchronizationManager(stateManager)] in a page: every structure
    empty, the backup not assigned, and a first call of [_syncVideos]. *)
Definition constructor (stateManager : StateManager.State)
                       (page : Element -> HTMLVideo) : option World :=
  _syncVideos (fresh stateManager page).

End Constants.

(** ** Vocabulary of the properties *)

(** A trim bound is set when the store holds a number for it that is not 0:
    this is the truthiness test [_videoTimeUpdate] applies to it. *)
Definition trim_set (bound : option Q) (q : Q) : Prop :=
  bound = Some q /\ ~ (q == 0)%Q.

(** The seek target of an element lies in one of its buffered ranges, a
    range holding its start and not its end, as [_videoSeeking] tests it. *)
Definition seek_target_buffered (w : World) (video : Element) : Prop :=
  exists range_start range_end,
    (range_start, range_end) ∈ buffered (page w video) /\
    (range_start <= currentTime (page w video))%Q /\
    (currentTime (page w video) < range_end)%Q.

(** The rational a finite number is. *)
Definition value (x : Number) : option Q :=
  match x with
  | S754_zero _ => Some 0%Q
  | S754_finite s m e =>
      Some ((if s then -1 else 1) * inject_Z (Zpos m) * Qpower 2 e)%Q
  | S754_infinity _ | S754_nan => None
  end.

(** The rational [q] is a double: [double] gives a number that is [q]. *)
Definition is_double (q : Q) : bool :=
  match value (double q) with
  | Some v => Qeq_bool v q
  | None => false
  end.

(** The effects of one correction while not paused: the element is added
    to the waiting set, WAITING is published unless the play state is
    FINISHED, and then the position is written. *)
Definition correction (finished : bool) (m : Q) (video : nat) : list Effect :=
  WaitingAdd video ::
  (if finished then [] else [StoreSetPlayState WAITING None]) ++
  [CurrentTimeWrite video m].

(** In the effects [new], every write of an element's position writes [m]
    and comes after the element was added to the waiting set. *)
Definition waiting_before_write (m : Q) (new : list Effect) : Prop :=
  forall pre video t post,
    new = pre ++ CurrentTimeWrite video t :: post ->
    t = m /\ WaitingAdd video ∈ pre.

(** The notifications of the waiting-set protocol: an element reports a
    stall ([waiting]) or reports that it is ready ([canplay],
    [canplaythrough], [seeked]). *)
Inductive Notification : Type :=
| Stall (video : Element)
| Ready (video : Element).

Definition notify (n : Notification) (w : World) : World :=
  match n with
  | Stall video => _videoWaiting video w
  | Ready video => _videoReady video w
  end.

(** The notifications [ns] delivered one after the other, nothing else
    touching the engine or the store in between. *)
Definition notify_all (ns : list Notification) (w : World) : World :=
  foldl (fun w n => notify n w) w ns.

(** The relation between waiting set, backup and play state that stall and
    ready notifications maintain, [p0] being the play state outside of
    stalls. *)
Definition consistent (p0 : PlayState) (w : World) : Prop :=
  (_videosWaiting (this w) = ∅ -> StateManager.playState (state w) = p0) /\
  (_videosWaiting (this w) <> ∅ ->
     backupPlayState (this w) = Some p0 /\
     StateManager.playState (state w) =
       if PlayState_eqb p0 FINISHED then FINISHED else WAITING).

(** ** Sample stores and pages for the examples *)

Definition store_in (p : PlayState) : StateManager.State :=
  {| StateManager.playState := p; StateManager.position := 0;
     StateManager.duration := 0; StateManager.bufferPosition := 0;
     StateManager.trimStart := None; StateManager.trimEnd := None;
     StateManager.live := false |}.

Definition trimmed_store (p : PlayState) (ts te : Q) : StateManager.State :=
  {| StateManager.playState := p; StateManager.position := 0;
     StateManager.duration := 0; StateManager.bufferPosition := 0;
     StateManager.trimStart := Some ts; StateManager.trimEnd := Some te;
     StateManager.live := false |}.

(** Element 1 at 10 seconds, element 2 a sixteenth of a second ahead of it,
    every other element two seconds ahead. *)
Definition drifting_page : Element -> HTMLVideo :=
  fun video =>
    {| currentTime := match video with
                      | 1%nat => 10
                      | 2%nat => 10 + (1 # 16)
                      | _ => 12
                      end;
       buffered := [(0, 30)]%Q; duration := 60 |}.

(** The doubles that the literals [0.01] and [0.51] denote. *)
Definition literal_0_01 : Q := 5764607523034235 # 576460752303423488.
Definition literal_0_51 : Q := 2296835809958953 # 4503599627370496.

(** Element 1 at 0.01 seconds, every other element at 0.51 seconds. *)
Definition half_second_page : Element -> HTMLVideo :=
  fun video =>
    {| currentTime := match video with
                      | 1%nat => literal_0_01
                      | _ => literal_0_51
                      end;
       buffered := [(0, 30)]%Q; duration := 60 |}.

(** Every element at position [t] with the ranges [ranges] buffered. *)
Definition uniform_page (t : Q) (ranges : list (Q * Q)) : Element -> HTMLVideo :=
  fun _ => {| currentTime := t; buffered := ranges; duration := 60 |}.

(** Element 1 has ten seconds buffered, every other element five. *)
Definition two_buffers_page : Element -> HTMLVideo :=
  fun video =>
    {| currentTime := 0;
       buffered := match video with
                   | 1%nat => [(0, 10)]%Q
                   | _ => [(0, 5)]%Q
                   end;
       duration := 60 |}.

(** [recorded] is the end of the last range of [ranges] that starts at or
    before [now]. *)
Definition last_started_range (ranges : list (Q * Q)) (now : Q)
    (recorded : option Q) : Prop :=
  exists i range_start range_end,
    recorded = Some range_end /\
    ranges !! i = Some (range_start, range_end) /\
    (range_start <= now)%Q /\
    forall j s e, (i < j)%nat -> ranges !! j = Some (s, e) -> (now < s)%Q.

(** Every range of [ranges] starts after [now]. *)
Definition all_start_later (ranges : list (Q * Q)) (now : Q) : Prop :=
  forall j s e, ranges !! j = Some (s, e) -> (now < s)%Q.

(** ** The interactive transcript and the active chapter

    The list functions of the transcript element and of the analytics
    manager that pick the cue or chapter under the playhead.  A cue or a
    chapter is the record of the properties these functions read; an absent
    array ([undefined] or [null]) is [None]. *)

Module InteractiveTranscript.

(** A [VTTCue]. *)
Record Cue : Type := mkCue {
  id : string;
  startTime : Q;
  endTime : Q;
  text : string
}.

(** [_getActiveCue(captions, position)]:
    [captions.slice().reverse().find(...)], nothing without captions. *)
Definition _getActiveCue (captions : option (list Cue)) (position : Q) : option Cue :=
  match captions with
  | Some captions =>
      List.find (fun cue => Qle_bool (startTime cue) position &&
                            Qltb position (endTime cue))
                (rev captions)
  | None => None
  end.

(** [!bound || test(bound)] for a trim bound. *)
Definition unset_or (bound : option Q) (test : Q -> bool) : bool :=
  match bound with
  | Some q => Qeq_bool q 0 || test q
  | None => true
  end.

(** [_getVisibleCaptions(captions, trimStart, trimEnd)] *)
Definition _getVisibleCaptions (captions : option (list Cue))
    (trimStart trimEnd : option Q) : option (list Cue) :=
  match captions with
  | Some captions =>
      Some (List.filter
              (fun cue => unset_or trimStart (fun ts => Qltb ts (endTime cue)) &&
                          unset_or trimEnd (fun te => Qltb (startTime cue) te))
              captions)
  | None => None
  end.

End InteractiveTranscript.

Module AnalyticsManager.

(** An entry of [configuration.chapters]. *)
Record Chapter : Type := mkChapter {
  title : string;
  startPosition : Q
}.

(** [_getActiveChapter()], [chapters] being
    [this.videoPlayer.configuration.chapters] and [position] being
    [this.stateManager.state.position]. *)
Definition _getActiveChapter (chapters : option (list Chapter)) (position : Q)
    : option Chapter :=
  match chapters with
  | Some chapters =>
      List.find (fun chapter => Qle_bool (startPosition chapter) position)
                (rev chapters)
  | None => None
  end.

End AnalyticsManager.

(** [cue] spans [position]: it has started and has not ended. *)
Definition cue_spans (position : Q) (cue : InteractiveTranscript.Cue) : Prop :=
  (InteractiveTranscript.startTime cue <= position)%Q /\
  (position < InteractiveTranscript.endTime cue)%Q.

(** [position] is inside the trim window, as far as its bounds are set. *)
Definition inside_trim (trimStart trimEnd : option Q) (position : Q) : Prop :=
  (forall ts, trim_set trimStart ts -> (ts <= position)%Q) /\
  (forall te, trim_set trimEnd te -> (position < te)%Q).

(** The chapters are listed by ascending start position. *)
Definition starts_ascending (chapters : list AnalyticsManager.Chapter) : Prop :=
  forall i j a b,
    (i <= j)%nat -> chapters !! i = Some a -> chapters !! j = Some b ->
    (AnalyticsManager.startPosition a <= AnalyticsManager.startPosition b)%Q.

Definition three_chapters : list AnalyticsManager.Chapter :=
  [AnalyticsManager.mkChapter "Intro" 0;
   AnalyticsManager.mkChapter "Setup" 30;
   AnalyticsManager.mkChapter "Demo" 90].

(** ** The fullscreen manager

    [fullscreen-manager.js].  The browser is the record of what the manager
    tests and touches: which of the vendor methods exist on the element and
    on the document, the class list of the element and the [position] style
    of the body.  Calls of native methods and of callbacks are recorded. *)

Module FullscreenManager.

(** The methods of [this.fullscreenElement] that [enterFullscreen] tests. *)
Record ElementApi : Type := mkElementApi {
  requestFullscreen : bool;
  mozRequestFullScreen : bool;
  webkitRequestFullScreen : bool;
  msRequestFullscreen : bool
}.

(** The methods of [document] that [exitFullscreen] tests. *)
Record DocumentApi : Type := mkDocumentApi {
  exitFullscreen_api : bool;
  mozCancelFullScreen : bool;
  webkitCancelFullScreen : bool;
  msExitFullscreen : bool
}.

Inductive Call : Type :=
| CallRequestFullscreen
| CallMozRequestFullScreen
| CallWebkitRequestFullScreen
| CallMsRequestFullscreen
| CallExitFullscreen
| CallMozCancelFullScreen
| CallWebkitCancelFullScreen
| CallMsExitFullscreen
| CallCallback (callback : nat) (fullscreen : bool).

Record World : Type := mkWorld {
  element : ElementApi;
  document : DocumentApi;
  classList : list string;          (* [fullscreenElement.classList] *)
  bodyPosition : string;            (* [document.body.style.position] *)
  _oldBodyPosition : string;
  (* a [Set]: no element twice, iterated in the order of insertion *)
  fullscreenChangedCallbacks : list nat;
  calls : list Call
}.

Definition call (c : Call) (w : World) : World :=
  {| element := element w; document := document w; classList := classList w;
     bodyPosition := bodyPosition w; _oldBodyPosition := _oldBodyPosition w;
     fullscreenChangedCallbacks := fullscreenChangedCallbacks w;
     calls := calls w ++ [c] |}.

(** [DOMTokenList.add] and [DOMTokenList.remove] of one token. *)
Definition classList_add (token : string) (l : list string) : list string :=
  if bool_decide (token ∈ l) then l else l ++ [token].

Definition classList_remove (token : string) (l : list string) : list string :=
  List.filter (fun t => bool_decide (t <> token)) l.

(** [Set.prototype.add] and [Set.prototype.delete]. *)
Definition Set_add (x : nat) (s : list nat) : list nat :=
  if bool_decide (x ∈ s) then s else s ++ [x].

Definition Set_delete (x : nat) (s : list nat) : list nat :=
  List.filter (fun y => bool_decide (y <> x)) s.

(** The fields as the constructor sets them. *)
Definition constructor (element : ElementApi) (document : DocumentApi)
    (classes : list string) (position : string) : World :=
  {| element := element; document := document; classList := classes;
     bodyPosition := position; _oldBodyPosition := EmptyString;
     fullscreenChangedCallbacks := []; calls := [] |}.

(** [enterFullscreen()] *)
Definition enterFullscreen (w : World) : World :=
  if requestFullscreen (element w) then call CallRequestFullscreen w
  else if mozRequestFullScreen (element w) then call CallMozRequestFullScreen w
  else if webkitRequestFullScreen (element w) then call CallWebkitRequestFullScreen w
  else if msRequestFullscreen (element w) then call CallMsRequestFullscreen w
  else
    {| element := element w; document := document w;
       classList := classList_add "fake-fullscreen" (classList w);
       bodyPosition := "fixed";
       _oldBodyPosition := bodyPosition w;
       fullscreenChangedCallbacks := fullscreenChangedCallbacks w;
       calls := calls w |}.

(** [exitFullscreen()] *)
Definition exitFullscreen (w : World) : World :=
  if exitFullscreen_api (document w) then call CallExitFullscreen w
  else if mozCancelFullScreen (document w) then call CallMozCancelFullScreen w
  else if webkitCancelFullScreen (document w) then call CallWebkitCancelFullScreen w
  else if msExitFullscreen (document w) then call CallMsExitFullscreen w
  else
    {| element := element w; document := document w;
       classList := classList_remove "fake-fullscreen" (classList w);
       bodyPosition := _oldBodyPosition w;
       _oldBodyPosition := _oldBodyPosition w;
       fullscreenChangedCallbacks := fullscreenChangedCallbacks w;
       calls := calls w |}.

Definition with_callbacks (s : list nat) (w : World) : World :=
  {| element := element w; document := document w; classList := classList w;
     bodyPosition := bodyPosition w; _oldBodyPosition := _oldBodyPosition w;
     fullscreenChangedCallbacks := s; calls := calls w |}.

(** [onFullscreenChanged(callback)] and [offFullscreenChanged(callback)] *)
Definition onFullscreenChanged (callback : nat) (w : World) : World :=
  with_callbacks (Set_add callback (fullscreenChangedCallbacks w)) w.

Definition offFullscreenChanged (callback : nat) (w : World) : World :=
  with_callbacks (Set_delete callback (fullscreenChangedCallbacks w)) w.

(** [_fullScreenChanged(fullscreen)]; the callbacks are taken not to change
    the set while it is iterated. *)
Definition _fullScreenChanged (fullscreen : bool) (w : World) : World :=
  foldl (fun w callback => call (CallCallback callback fullscreen) w)
        w (fullscreenChangedCallbacks w).

(** A subscription or its cancellation. *)
Inductive Subscription : Type :=
| On (callback : nat)
| Off (callback : nat).

Definition subscribe (s : Subscription) (w : World) : World :=
  match s with
  | On callback => onFullscreenChanged callback w
  | Off callback => offFullscreenChanged callback w
  end.

Definition subscribe_all (l : list Subscription) (w : World) : World :=
  foldl (fun w s => subscribe s w) w l.

(** Whether the last of the subscriptions [l] that names [callback] is an
    [On]. *)
Definition subscribed (l : list Subscription) (callback : nat) : bool :=
  foldl (fun b s =>
           match s with
           | On c => if decide (c = callback) then true else b
           | Off c => if decide (c = callback) then false else b
           end) false l.

(** A browser without any of the fullscreen methods. *)
Definition no_element_api : ElementApi := mkElementApi false false false false.
Definition no_document_api : DocumentApi := mkDocumentApi false false false false.

End FullscreenManager.

(** ** The configuration validator

    [ConfigurationValidator]: a configuration is checked against a schema,
    option by option and nested schema by nested schema.

    - A configuration is JSON-like data.  Objects list their properties in
      the order [Object.entries] enumerates them, each key once.
    - A schema maps option names to descriptors; the fields of a descriptor
      are the ones the validator reads.  [required] is the truthiness of the
      field, [min] and [max] are numbers, [pattern] is the [test] method of
      a regular expression without the [g] and [y] flags, [options] is an
      array.
    - [console.error] and [console.warn] append to a log; a message is kept
      by its kind and arguments, its text is not rendered.
    - The recursion of [_validateSubSchema] follows the nesting of the
      schema.  It is written with a depth budget; [validate] starts it with
      the nesting depth of the schema, which is always enough. *)

Module ConfigurationValidator.

#[warnings="-register-all"]
Inductive JsValue : Type :=
| JUndefined
| JNull
| JBool (b : bool)
| JNum (q : Q)
| JStr (s : string)
| JArr (elements : list JsValue)
| JObj (properties : list (string * JsValue)).

#[warnings="-register-all"]
Inductive Descriptor : Type := mkDescriptor {
  required : bool;
  type : option string;
  options : option (list JsValue);
  min : option Q;
  max : option Q;
  pattern : option (JsValue -> bool);
  schema : option (list (string * Descriptor))
}.

Inductive MessageText : Type :=
| MissingOptions (paths : list string)
| UnknownOption (path : string)
| WrongType (path : string) (validType : option string) (actualType : string)
| NotAnOption (path : string) (allowed : list JsValue)
| BelowMin (path : string) (bound : Q)
| AboveMax (path : string) (bound : Q)
| InvalidValue (path : string).

Inductive Message : Type :=
| ConsoleError (text : MessageText)
| ConsoleWarn (text : MessageText).

(** How a call ends: with a value, with an uncaught [TypeError], or with the
    depth budget used up. *)
Inductive Outcome (A : Type) : Type :=
| Returned (a : A)
| TypeError
| OutOfBudget.
Arguments Returned {A} a.
Arguments TypeError {A}.
Arguments OutOfBudget {A}.

(** A computation: what it logged and how it ended. *)
Definition Run (A : Type) : Type := (list Message * Outcome A)%type.

Definition ret {A} (a : A) : Run A := ([], Returned a).

Definition bind {A B} (m : Run A) (f : A -> Run B) : Run B :=
  match snd m with
  | Returned a => (fst m ++ fst (f a), snd (f a))
  | TypeError => (fst m, TypeError)
  | OutOfBudget => (fst m, OutOfBudget)
  end.

(** [_error(message)] and [_warn(message)] *)
Definition _error (text : MessageText) : Run unit := ([ConsoleError text], Returned tt).
Definition _warn (text : MessageText) : Run unit := ([ConsoleWarn text], Returned tt).

(** [_getType(value)] *)
Definition _getType (value : JsValue) : string :=
  match value with
  | JArr _ => "array"
  | JUndefined => "undefined"
  | JNull => "object"
  | JBool _ => "boolean"
  | JNum _ => "number"
  | JStr _ => "string"
  | JObj _ => "object"
  end.

(** [_getPropertyPath(propertyPath, option)]; [None] is [null], and the
    empty string is falsy too. *)
Definition _getPropertyPath (propertyPath : option string) (option : string) : string :=
  match propertyPath with
  | Some (String c rest) => String c rest +:+ "." +:+ option
  | Some EmptyString => option
  | None => option
  end.

(** [value == null] *)
Definition is_nullish (value : JsValue) : bool :=
  match value with
  | JUndefined | JNull => true
  | _ => false
  end.

(** The characters of a string as one-character strings. *)
Fixpoint characters (s : string) : list JsValue :=
  match s with
  | EmptyString => []
  | String c rest => JStr (String c EmptyString) :: characters rest
  end.

(** [Object.entries(value)]: it raises on [null] and [undefined], numbers
    and Booleans have no entries, strings and arrays are enumerated by
    index. *)
Definition Object_entries (value : JsValue) : option (list (string * JsValue)) :=
  match value with
  | JUndefined | JNull => None
  | JBool _ | JNum _ => Some []
  | JStr s => Some (imap (fun i c => (pretty i, c)) (characters s))
  | JArr elements => Some (imap (fun i v => (pretty i, v)) elements)
  | JObj properties => Some properties
  end.

(** [Object.keys(value)] *)
Definition Object_keys (value : JsValue) : option (list string) :=
  (fun entries : list (string * JsValue) => entries.*1) <$> Object_entries value.

(** [keys.includes(key)] *)
Definition includes (keys : list string) (key : string) : bool :=
  bool_decide (key ∈ keys).

(** [schema[key]] *)
Definition schema_get (schema : list (string * Descriptor)) (key : string)
    : option Descriptor :=
  snd <$> List.find (fun entry => bool_decide (fst entry = key)) schema.

(** [allowed.includes(value)], which compares by SameValueZero: two
    primitives by their value, while an array or object of the configuration
    is not the object a schema lists. *)
Definition same_value_zero (a b : JsValue) : bool :=
  match a, b with
  | JUndefined, JUndefined => true
  | JNull, JNull => true
  | JBool x, JBool y => Bool.eqb x y
  | JNum x, JNum y => Qeq_bool x y
  | JStr x, JStr y => bool_decide (x = y)
  | _, _ => false
  end.

Definition options_include (allowed : list JsValue) (value : JsValue) : bool :=
  existsb (fun candidate => same_value_zero candidate value) allowed.

(** [validType !== actualType] *)
Definition type_differs (validType : option string) (actualType : string) : bool :=
  negb (bool_decide (validType = Some actualType)).

Section Coercion.

(** The conversion to a number that [<] and [>] apply to a string, an array
    or an object before they compare it with a number; [None] is [NaN]. *)
Variable ToNumber : JsValue -> option Q.

Definition to_number (value : JsValue) : option Q :=
  match value with
  | JNum q => Some q
  | JBool true => Some 1%Q
  | JBool false => Some 0%Q
  | JNull => Some 0%Q
  | JUndefined => None
  | _ => ToNumber value
  end.

(** [bound && value < bound] and [bound && value > bound]: a bound of 0 is
    falsy, a comparison with [NaN] is false. *)
Definition below (bound : option Q) (value : JsValue) : option Q :=
  match bound with
  | Some b =>
      if negb (Qeq_bool b 0) &&
         match to_number value with Some v => Qltb v b | None => false end
      then Some b else None
  | None => None
  end.

Definition above (bound : option Q) (value : JsValue) : option Q :=
  match bound with
  | Some b =>
      if negb (Qeq_bool b 0) &&
         match to_number value with Some v => Qltb b v | None => false end
      then Some b else None
  | None => None
  end.

(** [_checkForMissingOptions(configuration, schema, nodePath)] *)
Definition _checkForMissingOptions (configuration : JsValue)
    (schema : list (string * Descriptor)) (nodePath : option string) : Run bool :=
  match Object_keys configuration with
  | None => ([], TypeError)
  | Some presentOptions =>
      let missingOptions :=
        List.filter (fun k => negb (includes presentOptions k))
          ((List.filter (fun entry => required (snd entry)) schema).*1) in
      if (length missingOptions =? 0)%nat then ret true
      else
        bind (_error (MissingOptions (_getPropertyPath nodePath <$> missingOptions)))
             (fun _ => ret false)
  end.

(** The body of the loop of [_validatePresentOptions] for one entry of the
    configuration: the new value of [isValid].  [validateSubSchema] is
    [this._validateSubSchema]. *)
Definition check_option
    (validateSubSchema : JsValue -> list (string * Descriptor) -> option string -> Run bool)
    (schema : list (string * Descriptor)) (nodePath : option string)
    (isValid : bool) (key : string) (value : JsValue) : Run bool :=
  let propertyPath := _getPropertyPath nodePath key in
  if is_nullish value then ret isValid
  else if negb (includes (schema.*1) key) then
    bind (_warn (UnknownOption propertyPath)) (fun _ => ret false)
  else
    match schema_get schema key with
    | None => ([], TypeError)   (* not reached: the key is in the schema *)
    | Some descriptor =>
        let validType := type descriptor in
        let actualType := _getType value in
        if type_differs validType actualType then
          bind (_error (WrongType propertyPath validType actualType))
               (fun _ => ret false)
        else
          let rejected :=
            match options descriptor with
            | Some allowed =>
                if negb (options_include allowed value) then Some allowed else None
            | None => None
            end in
          match rejected with
          | Some allowed =>
              bind (_error (NotAnOption propertyPath allowed)) (fun _ => ret false)
          | None =>
          match below (min descriptor) value with
          | Some bound =>
              bind (_error (BelowMin propertyPath bound)) (fun _ => ret false)
          | None =>
          match above (max descriptor) value with
          | Some bound =>
              bind (_error (AboveMax propertyPath bound)) (fun _ => ret false)
          | None =>
          if match pattern descriptor with
             | Some test => negb (test value)
             | None => false
             end
          then bind (_error (InvalidValue propertyPath)) (fun _ => ret false)
          else
            match ConfigurationValidator.schema descriptor with
            | Some subSchema =>
                if bool_decide (validType = Some "object") then
                  bind (validateSubSchema value subSchema (Some propertyPath))
                       (fun ok => ret (ok && isValid))
                else if bool_decide (validType = Some "array") then
                  match value with
                  | JArr elements =>
                      foldl (fun (acc : Run bool) '(i, element) =>
                               bind acc (fun isValid =>
                               bind (validateSubSchema element subSchema
                                       (Some (propertyPath +:+ "[" +:+ pretty (i : nat) +:+ "]")))
                                    (fun ok => ret (ok && isValid))))
                            (ret isValid)
                            (imap (fun (i : nat) element => (i, element)) elements)
                  | _ => ret isValid   (* not reached: the type is [array] *)
                  end
                else ret isValid
            | None => ret isValid
            end
          end end end
    end.

(** [_validatePresentOptions(configuration, schema, nodePath)] *)
Definition _validatePresentOptions
    (validateSubSchema : JsValue -> list (string * Descriptor) -> option string -> Run bool)
    (configuration : JsValue) (schema : list (string * Descriptor))
    (nodePath : option string) : Run bool :=
  match Object_entries configuration with
  | None => ([], TypeError)
  | Some entries =>
      foldl (fun (acc : Run bool) '(key, value) =>
               bind acc (fun isValid =>
                 check_option validateSubSchema schema nodePath isValid key value))
            (ret true) entries
  end.

(** [_validateSubSchema(configuration, schema, nodePath)], with a budget
    for the depth of the recursion. *)
Fixpoint _validateSubSchema (budget : nat) (configuration : JsValue)
    (schema : list (string * Descriptor)) (nodePath : option string) : Run bool :=
  match budget with
  | O => ([], OutOfBudget)
  | S budget =>
      bind (_checkForMissingOptions configuration schema nodePath)
           (fun present =>
              if present
              then _validatePresentOptions (_validateSubSchema budget)
                     configuration schema nodePath
              else ret false)
  end.

End Coercion.

(** The nesting depth of a descriptor and of a schema. *)
Fixpoint descriptor_depth (d : Descriptor) : nat :=
  match schema d with
  | None => 0
  | Some entries =>
      S ((fix deepest (entries : list (string * Descriptor)) : nat :=
            match entries with
            | [] => 0
            | (_, d') :: rest => Nat.max (descriptor_depth d') (deepest rest)
            end) entries)
  end.

Definition schema_depth (schema : list (string * Descriptor)) : nat :=
  S (foldr (fun entry deepest => Nat.max (descriptor_depth (snd entry)) deepest)
           0 schema).

(** [new ConfigurationValidator(schema).validate(configuration)] *)
Definition validate (ToNumber : JsValue -> option Q)
    (schema : list (string * Descriptor)) (configuration : JsValue) : Run bool :=
  _validateSubSchema ToNumber (schema_depth schema) configuration schema None.

End ConfigurationValidator.

(** A run that answers [true] has logged nothing and one that answers
    [false] has logged something, relative to the validity [isValid] it
    started from: it answers [true] only if it started valid and logged
    nothing, and [false] only if it started invalid or logged something. *)
Definition sound (isValid : bool) (r : ConfigurationValidator.Run bool) : Prop :=
  match snd r with
  | ConfigurationValidator.Returned true => isValid = true /\ fst r = []
  | ConfigurationValidator.Returned false => isValid = false \/ fst r <> []
  | _ => True
  end.

(** The required options of [schema] that are not among [keys]. *)
Definition missing_options
    (schema : list (string * ConfigurationValidator.Descriptor))
    (keys : list string) : list string :=
  List.filter (fun k => negb (ConfigurationValidator.includes keys k))
    ((List.filter (fun entry => ConfigurationValidator.required (snd entry)) schema).*1).

(** A descriptor that only asks for a number between two bounds. *)
Definition number_between (lo hi : Q) : ConfigurationValidator.Descriptor :=
  ConfigurationValidator.mkDescriptor false (Some "number") None
    (Some lo) (Some hi) None None.

(** A descriptor that only asks for an array of objects with the schema
    [elements]. *)
Definition array_of (elements : list (string * ConfigurationValidator.Descriptor))
    : ConfigurationValidator.Descriptor :=
  ConfigurationValidator.mkDescriptor false (Some "array") None
    None None None (Some elements).

(** No conversion: every string, array and object converts to [NaN]. *)
Definition no_number (value : ConfigurationValidator.JsValue) : option Q := None.

(** The run did not use up the depth budget. *)
Definition within_budget {A} (r : ConfigurationValidator.Run A) : Prop :=
  snd r <> ConfigurationValidator.OutOfBudget.

(** The descriptor asks for an array validated element by element against
    the schema [elements], and for nothing else. *)
Definition plain_array (d : ConfigurationValidator.Descriptor)
    (elements : list (string * ConfigurationValidator.Descriptor)) : Prop :=
  ConfigurationValidator.type d = Some "array" /\
  ConfigurationValidator.options d = None /\
  ConfigurationValidator.min d = None /\
  ConfigurationValidator.max d = None /\
  ConfigurationValidator.pattern d = None /\
  ConfigurationValidator.schema d = Some elements.

(** A bound without the value 0, and a descriptor without bounds of 0. *)
Definition drop_zero (bound : option Q) : option Q :=
  match bound with
  | Some b => if Qeq_bool b 0 then None else Some b
  | None => None
  end.

Definition without_zero_bounds (d : ConfigurationValidator.Descriptor)
    : ConfigurationValidator.Descriptor :=
  ConfigurationValidator.mkDescriptor
    (ConfigurationValidator.required d) (ConfigurationValidator.type d)
    (ConfigurationValidator.options d)
    (drop_zero (ConfigurationValidator.min d))
    (drop_zero (ConfigurationValidator.max d))
    (ConfigurationValidator.pattern d) (ConfigurationValidator.schema d).

(** * Properties *)

(** ** Basic facts about the operators *)

Lemma Qltb_lt (a b : Q) : Qltb a b = true <-> (a < b)%Q.
Proof.
  unfold Qltb. rewrite negb_true_iff, <- not_true_iff_false, Qle_bool_iff.
  split; [apply Qnot_le_lt | apply Qlt_not_le].
Qed.

Lemma Qltb_ge (a b : Q) : Qltb a b = false <-> (b <= a)%Q.
Proof.
  unfold Qltb. rewrite negb_false_iff. apply Qle_bool_iff.
Qed.

Lemma PlayState_eqb_eq (a b : PlayState) : PlayState_eqb a b = true <-> a = b.
Proof. unfold PlayState_eqb. apply bool_decide_eq_true. Qed.

Lemma PlayState_eqb_neq (a b : PlayState) : PlayState_eqb a b = false <-> a <> b.
Proof. unfold PlayState_eqb. apply bool_decide_eq_false. Qed.

Lemma anyWaiting_false (w : World) :
  _anyWaiting w = false <-> _videosWaiting (this w) = ∅.
Proof.
  unfold _anyWaiting. rewrite Nat.ltb_ge, <- (leibniz_equiv_iff (_videosWaiting (this w))), <- size_empty_iff. lia.
Qed.

Lemma anyWaiting_true (w : World) :
  _anyWaiting w = true <-> _videosWaiting (this w) <> ∅.
Proof.
  rewrite <- anyWaiting_false. destruct (_anyWaiting w); intuition congruence.
Qed.

Lemma indexOf_zero (l : list nat) (x : nat) :
  indexOf l x = Some 0%nat <-> l !! 0%nat = Some x.
Proof.
  destruct l as [|y r]; simpl; [intuition congruence|].
  destruct (decide (y = x)) as [->|Hne]; [intuition congruence|].
  split.
  - destruct (indexOf r x); simpl; congruence.
  - intros [=]; contradiction.
Qed.

Lemma isMaster_head (e : nat) (w : World) :
  isMaster e w = true <-> _videos (this w) !! 0%nat = Some e.
Proof. unfold isMaster. rewrite bool_decide_eq_true. apply indexOf_zero. Qed.

(** ** Backup and restore of the play state *)

(** C5.  Backing up while the store's play state is WAITING changes
    nothing, so an existing backup is kept.  Restoring with a backup present
    while the store's play state is not WAITING calls no setter of the store
    and leaves its state as it is, and the backup is cleared. *)
Theorem backup_restore_guards (w1 w2 : World) (b : PlayState)
    (Hwaiting : StateManager.playState (state w1) = WAITING)
    (Hbackup : backupPlayState (this w2) = Some b)
    (Hmoved : StateManager.playState (state w2) <> WAITING) :
  _backupPlayState w1 = w1 /\
  backupPlayState (this (_backupPlayState w1)) = backupPlayState (this w1) /\
  effects (_restorePlayState w2) = effects w2 /\
  state (_restorePlayState w2) = state w2 /\
  backupPlayState (this (_restorePlayState w2)) = None.
Proof.
  assert (H1 : _backupPlayState w1 = w1).
  { unfold _backupPlayState. rewrite Hwaiting. reflexivity. }
  split; [exact H1|]. split; [now rewrite H1|].
  unfold _restorePlayState. rewrite Hbackup.
  apply PlayState_eqb_neq in Hmoved. rewrite Hmoved. simpl. auto.
Qed.

(** ** Mastery *)

Lemma unregisterVideo_videos (video : nat) (w : World) :
  _videos (this (unregisterVideo video w)) =
  List.filter (fun x => bool_decide (x <> video)) (_videos (this w)).
Proof. reflexivity. Qed.

(** C6, as amended.  An element is the master exactly when it is at
    position 0 of the registry; and when the element at position 1 is not
    the element at position 0 (an element registered twice occupies both),
    it is the master once the element at position 0 is unregistered. *)
Theorem mastery_is_positional (w : World) (e : nat) :
  (isMaster e w = true <-> _videos (this w) !! 0%nat = Some e) /\
  (forall a b rest,
      _videos (this w) = a :: b :: rest -> a <> b ->
      isMaster b (unregisterVideo a w) = true).
Proof.
  split; [apply isMaster_head|].
  intros a b rest Hreg Hne.
  apply isMaster_head. rewrite unregisterVideo_videos, Hreg. simpl.
  rewrite (bool_decide_eq_false_2 (a <> a)) by tauto.
  rewrite (bool_decide_eq_true_2 (b <> a)) by congruence.
  reflexivity.
Qed.

(** ** Trim clamping *)




Lemma backup_restore_guards_witness :
  let w1 := _videoWaiting 1 (fresh (store_in PLAYING) (uniform_page 0 [])) in
  let w2 := with_state (StateManager.setPlayState PAUSED (state w1)) w1 in
  (StateManager.playState (state w1) = WAITING /\
   backupPlayState (this w2) = Some PLAYING /\
   StateManager.playState (state w2) <> WAITING) /\
  _backupPlayState w1 = w1 /\
  backupPlayState (this (_backupPlayState w1)) = backupPlayState (this w1) /\
  effects (_restorePlayState w2) = effects w2 /\
  state (_restorePlayState w2) = state w2 /\
  backupPlayState (this (_restorePlayState w2)) = None.
Proof.
  intros w1 w2.
  assert (H1 : StateManager.playState (state w1) = WAITING) by reflexivity.
  assert (H2 : backupPlayState (this w2) = Some PLAYING) by reflexivity.
  assert (H3 : StateManager.playState (state w2) <> WAITING) by discriminate.
  split; [auto|]. exact (backup_restore_guards w1 w2 PLAYING H1 H2 H3).
Defined.

Lemma mastery_is_positional_witness :
  let w := registerVideo 2 (registerVideo 1 (fresh (store_in PAUSED) (uniform_page 0 []))) in
  (_videos (this w) = [1; 2]%nat /\ 1%nat <> 2%nat) /\
  isMaster 2 (unregisterVideo 1 w) = true.
Proof.
  intros w. split; [split; [reflexivity | discriminate]|].
  apply (proj2 (mastery_is_positional w 1) 1%nat 2%nat []); [reflexivity | discriminate].
Defined.

(** C6, counterexample.  An element registered twice is at positions 0 and
    1; unregistering it removes both entries, and the element that was at
    position 1 is not the master afterwards. *)
Lemma mastery_twice_registered :
  let w := registerVideo 2 (registerVideo 1 (registerVideo 1
             (fresh (store_in PAUSED) (uniform_page 0 [])))) in
  _videos (this w) !! 0%nat = Some 1%nat /\
  _videos (this w) !! 1%nat = Some 1%nat /\
  isMaster 1 (unregisterVideo 1 w) = false.
Proof. repeat split. Qed.


(** The two bounds are tested one after the other, the trim start first.
    With the trim start above the trim end and the master between them the
    position is below the one and above the other, and the trim start is
    what is published. *)
Example inverted_trim_window :
  let w := registerVideo 1 (fresh (trimmed_store PLAYING 10 5) (uniform_page 7 [])) in
  isMaster 1 w = true /\ _anyWaiting w = false /\
  effects (_videoTimeUpdate 1 w) = [StoreSetPosition 10 (Some false)].
Proof. repeat split. Qed.

(** ** Stalls and seeks *)

Ltac case_PlayState_eqb a b :=
  let E := fresh "E" in
  destruct (PlayState_eqb a b) eqn:E;
  [apply PlayState_eqb_eq in E | apply PlayState_eqb_neq in E].

(** What [setWaiting] does, branch by branch. *)
Lemma setWaiting_spec (video : nat) (w : World) :
  let w' := setWaiting video w in
  let playState := StateManager.playState (state w) in
  _videosWaiting (this w') = {[video]} ∪ _videosWaiting (this w) /\
  (_videosWaiting (this w) = ∅ -> playState <> WAITING ->
     backupPlayState (this w') = Some playState) /\
  (_videosWaiting (this w) <> ∅ \/ playState = WAITING ->
     backupPlayState (this w') = backupPlayState (this w)) /\
  (playState <> FINISHED ->
     state w' = StateManager.setPlayState WAITING (state w) /\
     effects w' = effects w ++ [WaitingAdd video; StoreSetPlayState WAITING None]) /\
  (playState = FINISHED ->
     state w' = state w /\ effects w' = effects w ++ [WaitingAdd video]) /\
  _videos (this w') = _videos (this w) /\
  _videoBufferPositions (this w') = _videoBufferPositions (this w) /\
  _readyCallbacks (this w') = _readyCallbacks (this w) /\
  page w' = page w.
Proof.
  intros w' playState. subst w'. unfold setWaiting, _backupPlayState.
  fold playState.
  destruct (_anyWaiting w) eqn:Ea; simpl;
    [apply anyWaiting_true in Ea | apply anyWaiting_false in Ea];
    try (case_PlayState_eqb playState WAITING; simpl; fold playState);
    case_PlayState_eqb playState FINISHED; simpl;
    repeat split; try reflexivity; try tauto; try congruence;
    intros; simpl; rewrite <- ?app_assoc; try reflexivity; tauto.
Qed.

Lemma seekTimeBuffered_true (t : Q) (ranges : list (Q * Q)) :
  seekTimeBuffered t ranges = true <->
  exists s e, (s, e) ∈ ranges /\ (s <= t)%Q /\ (t < e)%Q.
Proof.
  induction ranges as [|[s e] rest IH]; simpl.
  - split; [discriminate|]. intros (s & e & Hin & _). inversion Hin.
  - destruct (Qle_bool s t && Qltb t e) eqn:E.
    + split; [|reflexivity]. intros _.
      apply andb_true_iff in E as [E1 E2].
      apply Qle_bool_iff in E1. apply Qltb_lt in E2.
      exists s, e. split; [left|auto].
    + rewrite IH. split.
      * intros (s' & e' & Hin & H). exists s', e'. split; [now right|auto].
      * intros (s' & e' & Hin & H1 & H2).
        apply elem_of_cons in Hin as [[= -> ->]|Hin].
        -- apply Qle_bool_iff in H1. apply Qltb_lt in H2.
           rewrite H1, H2 in E. discriminate.
        -- exists s', e'. auto.
Qed.

(** C9, as amended.  A seek whose target lies in a buffered range of the
    element changes nothing at all.  Any other seek is the stall handler
    applied to the element: the element joins the waiting set; the play
    state is backed up if nobody was waiting and the play state is not
    WAITING, and the backup is left as it is in every other case; WAITING
    is published unless the play state is FINISHED. *)
Theorem seek_notification (w : World) (video : nat) :
  (seek_target_buffered w video -> _videoSeeking video w = w) /\
  (~ seek_target_buffered w video ->
     let w' := _videoSeeking video w in
     let playState := StateManager.playState (state w) in
     w' = _videoWaiting video w /\
     _videosWaiting (this w') = {[video]} ∪ _videosWaiting (this w) /\
     (_videosWaiting (this w) = ∅ -> playState <> WAITING ->
        backupPlayState (this w') = Some playState) /\
     (_videosWaiting (this w) <> ∅ \/ playState = WAITING ->
        backupPlayState (this w') = backupPlayState (this w)) /\
     (playState <> FINISHED ->
        state w' = StateManager.setPlayState WAITING (state w) /\
        effects w' = effects w ++ [WaitingAdd video; StoreSetPlayState WAITING None]) /\
     (playState = FINISHED ->
        state w' = state w /\ effects w' = effects w ++ [WaitingAdd video])).
Proof.
  unfold seek_target_buffered, _videoSeeking. split.
  - intros H. apply seekTimeBuffered_true in H. rewrite H. reflexivity.
  - intros H. rewrite <- seekTimeBuffered_true in H.
    apply not_true_is_false in H. rewrite H. simpl.
    destruct (setWaiting_spec video w) as (H1 & H2 & H3 & H4 & H5 & _).
    unfold _videoWaiting. repeat split; auto; try apply H4; try apply H5; auto.
Qed.

Lemma seek_notification_witness :
  let buffered_seek := registerVideo 1 (fresh (store_in PLAYING) (uniform_page 3 [(0, 2); (2, 8)]%Q)) in
  let unbuffered_seek := registerVideo 1 (fresh (store_in PLAYING) (uniform_page 8 [(0, 2); (2, 8)]%Q)) in
  _videoSeeking 1 buffered_seek = buffered_seek /\
  _videoSeeking 1 unbuffered_seek = _videoWaiting 1 unbuffered_seek /\
  backupPlayState (this (_videoSeeking 1 unbuffered_seek)) = Some PLAYING /\
  effects (_videoSeeking 1 unbuffered_seek) = [WaitingAdd 1; StoreSetPlayState WAITING None].
Proof.
  intros w1 w2. split.
  - apply (proj1 (seek_notification w1 1)).
    exists 2%Q, 8%Q. repeat split; [right; left | discriminate].
  - assert (Hn : ~ seek_target_buffered w2 1).
    { intros (s & e & Hin & Hs & He).
      apply elem_of_cons in Hin as [[= -> ->]|Hin];
        [|apply elem_of_cons in Hin as [[= -> ->]|Hin]; [|inversion Hin]];
        vm_compute in He; discriminate. }
    destruct (proj2 (seek_notification w2 1) Hn) as (H1 & _ & H3 & _ & H2 & _).
    split; [exact H1|]. split.
    + apply H3; [reflexivity | discriminate].
    + apply H2. discriminate.
Defined.

(** C9, counterexample.  Element 2 stalls while the player is PLAYING and
    is unregistered before it reports ready: nobody waits any more and the
    store is still in WAITING.  Element 1 then seeks to a position outside
    its buffered ranges.  It is the first waiting element, and the play
    state is not backed up: the backup still holds PLAYING, not the play
    state WAITING of the store. *)
Lemma seek_without_backup :
  let w := unregisterVideo 2 (_videoWaiting 2 (registerVideo 2 (registerVideo 1
             (fresh (store_in PLAYING) (uniform_page 8 [(0, 2); (2, 8)]%Q))))) in
  let w' := _videoSeeking 1 w in
  _videosWaiting (this w) = ∅ /\
  StateManager.playState (state w) = WAITING /\
  w' = _videoWaiting 1 w /\
  _videosWaiting (this w') = {[1%nat]} /\
  backupPlayState (this w') = Some PLAYING /\
  backupPlayState (this w') <> Some (StateManager.playState (state w)).
Proof.
  repeat split; discriminate.
Qed.

(** ** The drift-correction tick *)

Lemma filterM_total {A} (p : A -> option bool) (q : A -> bool) (l : list A) :
  (forall x, x ∈ l -> p x = Some (q x)) ->
  filterM p l = Some (List.filter q l).
Proof.
  induction l as [|x r IH]; intros Hp; simpl; [reflexivity|].
  rewrite (Hp x) by left. simpl. rewrite IH by (intros; apply Hp; now right).
  simpl. destruct (q x); reflexivity.
Qed.

Lemma elem_of_List_filter {A} (q : A -> bool) (l : list A) (x : A) :
  x ∈ List.filter q l <-> x ∈ l /\ q x = true.
Proof. rewrite !list_elem_of_In. apply filter_In. Qed.


(** *** The two loops of the tick *)

(** Writing an element's position. *)
Lemma writeCurrentTime_page (video x : nat) (t : Q) (w : World) :
  currentTime (page (writeCurrentTime video t w) x) =
  if decide (x = video) then t else currentTime (page w x).
Proof.
  unfold writeCurrentTime. simpl.
  destruct (decide (x = video)) as [->|Hne].
  - rewrite fn_lookup_insert. reflexivity.
  - rewrite fn_lookup_insert_ne by congruence. reflexivity.
Qed.

(** The loop of the paused branch over the elements [l], the master being
    at position [m]. *)
Lemma paused_loop (master : nat) (m : Q) (l : list nat) (w : World) :
  currentTime (page w master) = m ->
  exists w',
    forEachM (fun video w =>
                t ← master_currentTime (Some master) w;
                Some (writeCurrentTime video t w)) l w = Some w' /\
    this w' = this w /\ state w' = state w /\
    effects w' = effects w ++ ((fun video => CurrentTimeWrite video m) <$> l) /\
    (forall x, x ∈ l -> currentTime (page w' x) = m) /\
    (forall x, x ∉ l -> currentTime (page w' x) = currentTime (page w x)).
Proof.
  revert w. induction l as [|v r IH]; intros w Hm; simpl.
  - exists w. rewrite app_nil_r. repeat split; auto.
    intros x Hx. inversion Hx.
  - rewrite Hm.
    destruct (IH (writeCurrentTime v m w)) as (w' & Hrun & Ht & Hs & He & Hin & Hout).
    { rewrite writeCurrentTime_page. destruct (decide _); auto. }
    exists w'. split; [exact Hrun|]. split; [rewrite Ht; reflexivity|].
    split; [rewrite Hs; reflexivity|].
    split; [rewrite He; simpl; rewrite <- app_assoc; reflexivity|].
    split.
    + intros x Hx. destruct (decide (x ∈ r)) as [Hr|Hr]; [auto|].
      rewrite (Hout x Hr), writeCurrentTime_page.
      apply elem_of_cons in Hx as [->|Hx]; [|contradiction].
      destruct (decide _); congruence.
    + intros x Hx. apply not_elem_of_cons in Hx as [Hne Hr].
      rewrite (Hout x Hr), writeCurrentTime_page.
      destruct (decide _); congruence.
Qed.

Lemma playing_loop (master : nat) (m : Q) (l : list nat) (w : World) :
  currentTime (page w master) = m ->
  exists w',
    forEachM (fun video w =>
                let w := setWaiting video w in
                t ← master_currentTime (Some master) w;
                Some (writeCurrentTime video t w)) l w = Some w' /\
    effects w' = effects w ++
      flat_map (correction (PlayState_eqb (StateManager.playState (state w)) FINISHED) m) l /\
    _videosWaiting (this w') = list_to_set l ∪ _videosWaiting (this w) /\
    (forall x, x ∈ l -> currentTime (page w' x) = m) /\
    (forall x, x ∉ l -> currentTime (page w' x) = currentTime (page w x)).
Proof.
  revert w. induction l as [|v r IH]; intros w Hm; simpl.
  - exists w. rewrite app_nil_r. repeat split; auto.
    + rewrite (left_id_L ∅ (∪)). reflexivity.
    + intros x Hx. inversion Hx.
  - destruct (setWaiting_spec v w) as (HW & _ & _ & Hnf & Hf & _ & _ & _ & Hp).
    rewrite Hp, Hm. simpl.
    set (w1 := setWaiting v w) in *.
    destruct (IH (writeCurrentTime v m w1)) as (w' & Hrun & He & Hw & Hin & Hout).
    { rewrite writeCurrentTime_page. destruct (decide _); [reflexivity|].
      rewrite Hp. exact Hm. }
    exists w'. split; [exact Hrun|].
    split.
    { rewrite He. simpl. unfold correction.
      case_PlayState_eqb (StateManager.playState (state w)) FINISHED.
      - destruct (Hf E) as [Hs Hef]. rewrite Hs, Hef.
        rewrite (proj2 (PlayState_eqb_eq _ _) E).
        simpl. rewrite <- !app_assoc. reflexivity.
      - destruct (Hnf E) as [Hs Hef]. rewrite Hs, Hef. simpl.
        rewrite <- !app_assoc. reflexivity. }
    split.
    { rewrite Hw. simpl. rewrite HW, ?list_to_set_cons.
      rewrite (assoc_L (∪)), (comm_L (∪) (list_to_set r)). reflexivity. }
    split.
    + intros x Hx. destruct (decide (x ∈ r)) as [Hr|Hr]; [auto|].
      rewrite (Hout x Hr), writeCurrentTime_page.
      apply elem_of_cons in Hx as [->|Hx]; [|contradiction].
      destruct (decide _); congruence.
    + intros x Hx. apply not_elem_of_cons in Hx as [Hne Hr].
      rewrite (Hout x Hr), writeCurrentTime_page.
      destruct (decide _); [congruence|]. rewrite Hp. reflexivity.
Qed.

Lemma waiting_before_write_nil (m : Q) : waiting_before_write m [].
Proof. intros [|? ?] ? ? ? H; discriminate. Qed.

Lemma waiting_before_write_app (m : Q) (a b : list Effect) :
  waiting_before_write m a -> waiting_before_write m b ->
  waiting_before_write m (a ++ b).
Proof.
  intros Ha Hb pre video t post Heq.
  apply app_eq_inv in Heq as [(k & -> & Hk)|(k & -> & Hk)].
  - destruct k as [|e k]; simpl in Hk.
    + destruct (Hb [] video t post) as [Ht Hin]; [now rewrite Hk|].
      inversion Hin.
    + injection Hk as <- ->.
      destruct (Ha pre video t k eq_refl) as [Ht Hin]. auto.
  - destruct (Hb k video t post Hk) as [Ht Hin]. split; [exact Ht|].
    apply elem_of_app. now right.
Qed.

Lemma waiting_before_write_correction (finished : bool) (m : Q) (video : nat) :
  waiting_before_write m (correction finished m video).
Proof.
  intros pre v t post Heq. unfold correction in Heq.
  destruct finished; simpl in Heq;
    destruct pre as [|e1 [|e2 [|e3 [|e4 pre]]]]; simpl in Heq;
    try discriminate; injection Heq as <-; subst; try discriminate;
    repeat match goal with H : _ :: _ = _ :: _ |- _ => injection H as ? ? end;
    subst; try discriminate.
  all: try match goal with H : CurrentTimeWrite _ _ = CurrentTimeWrite _ _ |- _ =>
         injection H as <- <- end.
  all: split; [reflexivity | left].
Qed.

Lemma waiting_before_write_corrections (finished : bool) (m : Q) (l : list nat) :
  waiting_before_write m (flat_map (correction finished m) l).
Proof.
  induction l as [|v r IH]; cbn [flat_map].
  - apply waiting_before_write_nil.
  - apply waiting_before_write_app; [apply waiting_before_write_correction | exact IH].
Qed.

Lemma write_in_corrections (finished : bool) (m t : Q) (video : nat) (l : list nat) :
  CurrentTimeWrite video t ∈ flat_map (correction finished m) l <->
  video ∈ l /\ t = m.
Proof.
  rewrite !list_elem_of_In, in_flat_map. split.
  - intros (v & Hv & Hin). unfold correction in Hin.
    destruct finished; simpl in Hin;
      repeat (destruct Hin as [Hin|Hin]; try discriminate);
      try contradiction; injection Hin as <- <-; auto.
  - intros [Hv ->]. exists video. split; [exact Hv|].
    unfold correction. destruct finished; simpl; auto.
Qed.

Section Tick.

Variable SYNC_INTERVAL : Q.
Variable SYNC_DIFF_THRESHOLD : Q.

(** C10.  With an empty registry the tick raises nothing, whatever the
    waiting set, the live flag and the play state are: the position of
    the missing master is never read.  The engine, the store and the page
    are as before, and the only effect is the timer of the next tick: no
    setter of the store is called, no element is marked waiting and no
    position is written. *)
Theorem sync_empty_registry (w : World)
    (Hempty : _videos (this w) = []) :
  exists w',
    _syncVideos SYNC_INTERVAL SYNC_DIFF_THRESHOLD w = Some w' /\
    this w' = this w /\ state w' = state w /\ page w' = page w /\
    effects w' = effects w ++ [SetTimeout (times (double SYNC_INTERVAL) (double 1000))].
Proof.
  exists (emit (SetTimeout (times (double SYNC_INTERVAL) (double 1000))) w).
  split; [|repeat split].
  unfold _syncVideos. rewrite Hempty.
  destruct (negb (_anyWaiting w) && negb (StateManager.live (state w)));
    [|reflexivity].
  destruct (PlayState_eqb (StateManager.playState (state w)) PAUSED);
    reflexivity.
Qed.

(** The constructor's own call of [_syncVideos] finds the registry empty:
    construction always succeeds and only starts the timer. *)
Lemma constructor_starts_the_loop (stateManager : StateManager.State)
    (page : nat -> HTMLVideo) :
  constructor SYNC_INTERVAL SYNC_DIFF_THRESHOLD stateManager page =
  Some (emit (SetTimeout (times (double SYNC_INTERVAL) (double 1000)))
             (fresh stateManager page)).
Proof.
  unfold constructor, _syncVideos.
  change (_anyWaiting (fresh stateManager page)) with false.
  cbn [negb andb fresh state this _videos].
  destruct (StateManager.live stateManager);
    [|destruct (PlayState_eqb (StateManager.playState stateManager) PAUSED)];
    reflexivity.
Qed.

(** C3, as amended.  A tick with nobody waiting on a store that is not
    live, the registry being [master :: rest].  The tick raises nothing and
    leaves the master where it is.  When the play state is PAUSED, every
    slave whose position is not the master's ends up exactly at the
    master's position, and no element is added to the waiting set.
    Otherwise a slave's position is written if and only if the absolute
    difference from the master's position, as double arithmetic computes it
    (the subtraction rounded to the nearest double), exceeds
    [SYNC_DIFF_THRESHOLD]; a slave that is written ends up at the master's
    position and in the waiting set, any other slave is left alone; and
    every write of a position comes after the addition of that element to
    the waiting set. *)
Theorem drift_correction (w : World) (master : nat) (rest : list nat)
    (Hready : _anyWaiting w = false)
    (Hseekable : StateManager.live (state w) = false)
    (Hregistry : _videos (this w) = master :: rest) :
  let m := currentTime (page w master) in
  let drift slave :=
    Math_abs (minus (double (currentTime (page w slave))) (double m)) in
  let exceeds slave := greater (drift slave) (double SYNC_DIFF_THRESHOLD) in
  exists w' new,
    _syncVideos SYNC_INTERVAL SYNC_DIFF_THRESHOLD w = Some w' /\
    effects w' =
      effects w ++ new ++
      [SetTimeout (times (double SYNC_INTERVAL) (double 1000))] /\
    currentTime (page w' master) = m /\
    (StateManager.playState (state w) = PAUSED ->
       (forall slave, slave ∈ rest ->
          ~ (currentTime (page w slave) == m)%Q ->
          currentTime (page w' slave) = m /\ CurrentTimeWrite slave m ∈ new) /\
       (forall video, WaitingAdd video ∉ new) /\
       _videosWaiting (this w') = ∅ /\
       state w' = state w) /\
    (StateManager.playState (state w) <> PAUSED ->
       (forall slave, slave ∈ rest ->
          ((exists t, CurrentTimeWrite slave t ∈ new) <->
             exceeds slave = true) /\
          (exceeds slave = true ->
             currentTime (page w' slave) = m /\
             slave ∈ _videosWaiting (this w')) /\
          (exceeds slave = false ->
             currentTime (page w' slave) = currentTime (page w slave) /\
             slave ∉ _videosWaiting (this w'))) /\
       waiting_before_write m new).
Proof.
  intros m drift exceeds.
  pose proof (proj1 (anyWaiting_false w) Hready) as Hnobody.
  unfold _syncVideos. rewrite Hready, Hseekable, Hregistry.
  cbn [negb andb]. change ((master :: rest) !! 0%nat) with (Some master).
  case_PlayState_eqb (StateManager.playState (state w)) PAUSED.
  - (* paused *)
    rewrite (filterM_total _
               (fun video => negb (Qeq_bool (currentTime (page w video)) m)))
      by reflexivity.
    cbn [mbind option_bind].
    set (drifted := List.filter _ (master :: rest)).
    destruct (paused_loop master m drifted w eq_refl)
      as (w' & Hrun & Ht & Hs & He & Hin & Hout).
    rewrite Hrun. cbn [mbind option_bind].
    exists (emit (SetTimeout (times (double SYNC_INTERVAL) (double 1000))) w'),
           ((fun video => CurrentTimeWrite video m) <$> drifted).
    split; [reflexivity|].
    split; [simpl; rewrite He, <- app_assoc; reflexivity|].
    split.
    { simpl. apply Hout. intros Hd. apply elem_of_List_filter in Hd as [_ Hd].
      apply negb_true_iff in Hd.
      assert (Qeq_bool m m = true) by (apply Qeq_bool_iff; reflexivity).
      fold m in Hd. congruence. }
    split; [|intros; congruence].
    intros _. split; [|split; [|split]].
    + intros slave Hslave Hdiff.
      assert (Hd : slave ∈ drifted).
      { apply elem_of_List_filter. split; [now right|].
        apply negb_true_iff, not_true_is_false.
        intros Heq. apply Qeq_bool_iff in Heq. contradiction. }
      split; [simpl; auto|].
      apply list_elem_of_fmap. exists slave. auto.
    + intros video Hv. apply list_elem_of_fmap in Hv as (x & Hx & _).
      discriminate.
    + simpl. rewrite Ht. exact Hnobody.
    + simpl. exact Hs.
  - (* not paused *)
    rewrite (filterM_total _ exceeds) by reflexivity.
    cbn [mbind option_bind].
    set (drifted := List.filter _ (master :: rest)).
    destruct (playing_loop master m drifted w eq_refl)
      as (w' & Hrun & He & Hw & Hin & Hout).
    cbv zeta in Hrun. rewrite Hrun. cbn [mbind option_bind].
    set (finished := PlayState_eqb (StateManager.playState (state w)) FINISHED) in *.
    exists (emit (SetTimeout (times (double SYNC_INTERVAL) (double 1000))) w'),
           (flat_map (correction finished m) drifted).
    split; [reflexivity|].
    split; [simpl; rewrite He, <- app_assoc; reflexivity|].
    split.
    { simpl. destruct (decide (master ∈ drifted)); [apply Hin | apply Hout]; auto. }
    split; [intros; congruence|].
    intros _. split; [|apply waiting_before_write_corrections].
    intros slave Hslave.
    assert (Hd : slave ∈ drifted <-> exceeds slave = true).
    { unfold drifted. rewrite elem_of_List_filter.
      split; [tauto|]. split; [now right | assumption]. }
    split; [|split].
    + rewrite <- Hd. split.
      * intros [t Ht]. apply write_in_corrections in Ht. tauto.
      * intros Hin'. exists m. apply write_in_corrections. auto.
    + intros Hlt. apply Hd in Hlt. simpl. split; [auto|].
      rewrite Hw. apply elem_of_union. left. apply elem_of_list_to_set. exact Hlt.
    + intros Hge. simpl.
      assert (Hnd : slave ∉ drifted) by (rewrite Hd, Hge; discriminate).
      split; [auto|].
      rewrite Hw, Hnobody, (right_id_L ∅ (∪)), elem_of_list_to_set. exact Hnd.
Qed.

End Tick.

Lemma sync_empty_registry_witness :
  let w := fresh (store_in PAUSED) (uniform_page 0 []) in
  _videos (this w) = [] /\
  exists w',
    _syncVideos (1 # 10) (1 # 10) w = Some w' /\
    this w' = this w /\ state w' = state w /\ page w' = page w /\
    effects w' = effects w ++ [SetTimeout (times (double (1 # 10)) (double 1000))].
Proof.
  intros w. split; [reflexivity|].
  apply (sync_empty_registry (1 # 10) (1 # 10) w). reflexivity.
Defined.

(** The tick on three playing elements, with a threshold of a tenth of a
    second: only the element two seconds ahead is corrected. *)
Example tick_corrects_the_far_slave :
  let w := registerVideo 3 (registerVideo 2 (registerVideo 1
             (fresh (store_in PLAYING) drifting_page))) in
  effects <$> _syncVideos (1 # 10) (1 # 10) w =
  Some [WaitingAdd 3; StoreSetPlayState WAITING None;
        CurrentTimeWrite 3 10;
        SetTimeout (times (double (1 # 10)) (double 1000))].
Proof. reflexivity. Qed.

Lemma drift_correction_witness :
  let w := registerVideo 3 (registerVideo 2 (registerVideo 1
             (fresh (store_in PLAYING) drifting_page))) in
  (_anyWaiting w = false /\ StateManager.live (state w) = false /\
   _videos (this w) = [1; 2; 3]%nat) /\
  exists w' new,
    _syncVideos (1 # 10) (1 # 10) w = Some w' /\
    effects w' =
      effects w ++ new ++
      [SetTimeout (times (double (1 # 10)) (double 1000))] /\
    currentTime (page w' 1) = 10%Q /\
    (exists t, CurrentTimeWrite 3 t ∈ new) /\
    ~ (exists t, CurrentTimeWrite 2 t ∈ new) /\
    waiting_before_write 10 new.
Proof.
  intros w.
  assert (H1 : _anyWaiting w = false) by reflexivity.
  assert (H2 : StateManager.live (state w) = false) by reflexivity.
  assert (H3 : _videos (this w) = [1; 2; 3]%nat) by reflexivity.
  split; [auto|].
  destruct (drift_correction (1 # 10) (1 # 10) w 1 [2; 3]%nat H1 H2 H3)
    as (w' & new & Hrun & He & Hm & _ & Hplaying).
  exists w', new.
  split; [exact Hrun|]. split; [exact He|]. split; [exact Hm|].
  assert (Hp : StateManager.playState (state w) <> PAUSED) by discriminate.
  destruct (Hplaying Hp) as [Hslaves Hbefore].
  split; [|split; [|exact Hbefore]].
  - apply (proj1 (Hslaves 3%nat ltac:(right; left))). reflexivity.
  - intros Hwritten.
    apply (proj1 (Hslaves 2%nat ltac:(left))) in Hwritten.
    vm_compute in Hwritten. discriminate.
Defined.

(** Conversion and arithmetic at some values.  The literal [0.1] denotes
    the double with mantissa 7205759403792794 and exponent -56, which is
    not the rational 1/10; a rational that is a double is converted to
    itself; an integer halfway between two doubles goes to the one with the
    even mantissa; the smallest positive double is 2^-1074, and half of it
    goes to zero; 2^1024 is out of range.  A tenth times a thousand is a
    hundred.  The literals [0.01] and [0.51] denote the two sample
    positions, and their difference, which is 1/2 + 5/2^59, rounds to a
    half. *)
Example double_examples :
  double (1 # 10) = S754_finite false 7205759403792794 (-56) /\
  is_double (1 # 10) = false /\
  double (7205759403792794 # 72057594037927936) = double (1 # 10) /\
  is_double (7205759403792794 # 72057594037927936) = true /\
  double (- (3 # 4)) = S754_finite true 6755399441055744 (-53) /\
  double (inject_Z (2 ^ 53 + 1)) = double (inject_Z (2 ^ 53)) /\
  double (1 # 2 ^ 1074) = S754_finite false 1 (-1074) /\
  double (1 # 2 ^ 1075) = S754_zero false /\
  double (inject_Z (2 ^ 1024)) = S754_infinity false /\
  times (double (1 # 10)) (double 1000) = double 100 /\
  double (1 # 100) = double literal_0_01 /\
  double (51 # 100) = double literal_0_51 /\
  (literal_0_51 - literal_0_01 == (1 # 2) + (5 # 576460752303423488))%Q /\
  minus (double literal_0_51) (double literal_0_01) = double (1 # 2).
Proof. repeat split; vm_compute; reflexivity. Qed.

(** C3, counterexample.  The threshold is half a second, the player is
    PLAYING, nobody waits and the store is not live.  The master is at the
    double written [0.01] and the slave at the double written [0.51]: the
    absolute difference of the two positions is 1/2 + 5/2^59, more than the
    threshold.  The subtraction of the tick rounds it to 1/2, which does
    not exceed the threshold, and the tick writes no position: it only
    sets its timer. *)
Lemma drift_lost_in_rounding :
  let w := registerVideo 2 (registerVideo 1
             (fresh (store_in PLAYING) half_second_page)) in
  let m := currentTime (page w 1) in
  let s := currentTime (page w 2) in
  is_double m = true /\ is_double s = true /\ is_double (1 # 2) = true /\
  _anyWaiting w = false /\ StateManager.live (state w) = false /\
  StateManager.playState (state w) = PLAYING /\
  _videos (this w) = [1; 2]%nat /\
  ((1 # 2) < Qabs (s - m))%Q /\
  _syncVideos (1 # 10) (1 # 2) w =
    Some (emit (SetTimeout (times (double (1 # 10)) (double 1000))) w).
Proof. repeat split; vm_compute; reflexivity. Qed.

(** ** Ready notifications *)

Lemma callback_loop (l : list ReadyEntry) (w : World) :
  foldl (fun w entry => emit (CallbackCall (callback entry)) w) w l =
  {| this := this w; state := state w; page := page w;
     effects := effects w ++ ((fun entry => CallbackCall (callback entry)) <$> l) |}.
Proof.
  revert w. induction l as [|entry r IH]; intros w; simpl.
  - rewrite app_nil_r. destruct w; reflexivity.
  - rewrite IH. simpl. rewrite <- app_assoc. reflexivity.
Qed.

(** A ready notification of an element that is not waiting changes nothing. *)
Lemma videoReady_absent (target : nat) (w : World) :
  target ∉ _videosWaiting (this w) -> _videoReady target w = w.
Proof.
  intros Hout. unfold _videoReady.
  rewrite (bool_decide_eq_false_2 _ Hout). simpl.
  rewrite difference_disjoint_L by (apply disjoint_singleton_r; exact Hout).
  destruct w as [[] ? ? ?]; reflexivity.
Qed.

(** While another element waits, only the waiting set shrinks. *)
Lemma videoReady_others_waiting (target : nat) (w : World) :
  target ∈ _videosWaiting (this w) ->
  _videosWaiting (this w) ∖ {[target]} <> ∅ ->
  _videoReady target w =
  with_this (set_videosWaiting (_videosWaiting (this w) ∖ {[target]}) (this w)) w.
Proof.
  intros Hin Hothers. unfold _videoReady.
  rewrite (bool_decide_eq_true_2 _ Hin).
  match goal with |- context [_anyWaiting ?x] =>
    rewrite (proj2 (anyWaiting_true x)) by exact Hothers end.
  reflexivity.
Qed.

(** The last waiting element reports ready. *)
Lemma videoReady_all_ready (target : nat) (w : World) :
  target ∈ _videosWaiting (this w) ->
  _videosWaiting (this w) ∖ {[target]} = ∅ ->
  let w' := _videoReady target w in
  let restoring :=
    match backupPlayState (this w) with
    | Some backup =>
        if PlayState_eqb (StateManager.playState (state w)) WAITING
        then Some backup else None
    | None => None
    end in
  _videosWaiting (this w') = ∅ /\
  backupPlayState (this w') = None /\
  _readyCallbacks (this w') =
    List.filter (fun entry => negb (once entry)) (_readyCallbacks (this w)) /\
  state w' = match restoring with
             | Some backup => StateManager.setPlayState backup (state w)
             | None => state w
             end /\
  effects w' = effects w ++
    match restoring with
    | Some backup => [StoreSetPlayState backup (Some false)]
    | None => []
    end ++ ((fun entry => CallbackCall (callback entry)) <$> _readyCallbacks (this w)) /\
  _videos (this w') = _videos (this w) /\
  _videoBufferPositions (this w') = _videoBufferPositions (this w) /\
  page w' = page w.
Proof.
  intros Hin Hnone w' restoring. subst w' restoring. unfold _videoReady.
  rewrite (bool_decide_eq_true_2 _ Hin).
  match goal with |- context [_anyWaiting ?x] =>
    rewrite (proj2 (anyWaiting_false x)) by exact Hnone end.
  cbn [andb negb]. rewrite callback_loop. unfold _restorePlayState.
  cbn [this with_this set_videosWaiting backupPlayState state].
  destruct (backupPlayState (this w)) as [backup|] eqn:Ebackup;
    [case_PlayState_eqb (StateManager.playState (state w)) WAITING|];
    simpl; rewrite <- ?app_assoc; repeat split; auto.
Qed.

(** ** Waiting-set consistency *)

Lemma insert_nonempty (video : nat) (W : gset nat) : {[video]} ∪ W <> ∅.
Proof.
  intros Hempty.
  assert (Hin : video ∈ ({[video]} ∪ W : gset nat))
    by (apply elem_of_union; left; apply elem_of_singleton; reflexivity).
  rewrite Hempty in Hin. exact (not_elem_of_empty (C := gset nat) video Hin).
Qed.

Lemma consistent_notify (p0 : PlayState) (n : Notification) (w : World) :
  p0 <> WAITING -> consistent p0 w -> consistent p0 (notify n w).
Proof.
  intros Hp0 [Hidle Hbusy]. destruct n as [video|video]; simpl.
  - (* stall *)
    unfold _videoWaiting.
    destruct (setWaiting_spec video w) as (HW & Hfirst & Hkeep & Hnf & Hf & _).
    cbv zeta in *.
    split; [intros Hempty; rewrite HW in Hempty;
            exfalso; exact (insert_nonempty video _ Hempty)|].
    intros _.
    destruct (decide (_videosWaiting (this w) = ∅)) as [Hnobody|Hsome].
    + specialize (Hidle Hnobody). rewrite Hidle in *.
      split; [apply Hfirst; auto|].
      case_PlayState_eqb p0 FINISHED.
      * destruct (Hf E) as [-> _]. congruence.
      * destruct (Hnf E) as [-> _]. reflexivity.
    + destruct (Hbusy Hsome) as [Hb Hps].
      split; [rewrite Hkeep; auto|].
      case_PlayState_eqb p0 FINISHED.
      * destruct Hf as [-> _]; congruence.
      * destruct Hnf as [-> _]; [congruence | reflexivity].
  - (* ready *)
    destruct (decide (video ∈ _videosWaiting (this w))) as [Hin|Hout];
      [|rewrite videoReady_absent by exact Hout; split; assumption].
    assert (Hsome : _videosWaiting (this w) <> ∅).
    { intros Hempty. rewrite Hempty in Hin.
      exact (not_elem_of_empty (C := gset nat) video Hin). }
    destruct (Hbusy Hsome) as [Hb Hps].
    destruct (decide (_videosWaiting (this w) ∖ {[video]} = ∅)) as [Hlast|Hothers].
    + destruct (videoReady_all_ready video w Hin Hlast) as (HW & _ & _ & Hs & _).
      cbv zeta in *. split; [|intros Hne; contradiction].
      intros _. rewrite Hs, Hb, Hps.
      case_PlayState_eqb p0 FINISHED; simpl; congruence.
    + rewrite videoReady_others_waiting by assumption. simpl.
      split; [intros; contradiction | intros _; auto].
Qed.

Lemma consistent_notify_all (p0 : PlayState) (ns : list Notification) (w : World) :
  p0 <> WAITING -> consistent p0 w -> consistent p0 (notify_all ns w).
Proof.
  intros Hp0. revert w. unfold notify_all.
  induction ns as [|n r IH]; intros w Hw; simpl; [exact Hw|].
  apply IH. apply consistent_notify; assumption.
Qed.

(** C1, as amended.  Start with nobody waiting and a play state other than
    WAITING, and deliver any sequence of stall and ready notifications of any
    elements, nothing else writing the store.  Then the play state in the
    store is WAITING if and only if the waiting set is not empty and the play
    state at the start was not FINISHED; a FINISHED play state stays FINISHED
    through every stall, and once nobody waits the play state is the one of
    the start. *)
Theorem waiting_iff_stalled (w : World) (ns : list Notification)
    (Hnobody : _videosWaiting (this w) = ∅)
    (Hstart : StateManager.playState (state w) <> WAITING) :
  let w' := notify_all ns w in
  (StateManager.playState (state w') = WAITING <->
     _videosWaiting (this w') <> ∅ /\
     StateManager.playState (state w) <> FINISHED) /\
  (StateManager.playState (state w) = FINISHED ->
     StateManager.playState (state w') = FINISHED) /\
  (_videosWaiting (this w') = ∅ ->
     StateManager.playState (state w') = StateManager.playState (state w)).
Proof.
  intros w'.
  assert (Hc : consistent (StateManager.playState (state w)) w').
  { apply consistent_notify_all; [exact Hstart|].
    split; [reflexivity | intros; contradiction]. }
  destruct Hc as [Hidle Hbusy].
  destruct (decide (_videosWaiting (this w') = ∅)) as [He|Hne].
  - rewrite (Hidle He). repeat split; try tauto;
      try (intros [? _]; contradiction).
  - destruct (Hbusy Hne) as [_ Hps]. rewrite Hps.
    case_PlayState_eqb (StateManager.playState (state w)) FINISHED;
      repeat split; try tauto; try congruence; try discriminate;
      try (intros [_ ?]; contradiction).
Qed.

Lemma waiting_iff_stalled_witness :
  let w := fresh (store_in PLAYING) (uniform_page 0 []) in
  let w' := notify_all [Stall 1; Stall 2; Ready 1] w in
  (_videosWaiting (this w) = ∅ /\ StateManager.playState (state w) <> WAITING) /\
  (StateManager.playState (state w') = WAITING <->
     _videosWaiting (this w') <> ∅ /\
     StateManager.playState (state w) <> FINISHED).
Proof.
  intros w w'.
  assert (H1 : _videosWaiting (this w) = ∅) by reflexivity.
  assert (H2 : StateManager.playState (state w) <> WAITING) by discriminate.
  split; [auto|].
  exact (proj1 (waiting_iff_stalled w [Stall 1; Stall 2; Ready 1] H1 H2)).
Defined.

(** C1, counterexample.  The play state is FINISHED when an element stalls:
    the waiting set is not empty afterwards and the play state is still
    FINISHED, not WAITING. *)
Lemma stalled_while_finished :
  let w := fresh (store_in FINISHED) (uniform_page 0 []) in
  let w' := notify_all [Stall 1] w in
  _videosWaiting (this w) = ∅ /\
  _videosWaiting (this w') <> ∅ /\
  StateManager.playState (state w') = FINISHED /\
  ~ (StateManager.playState (state w') = WAITING <->
     _videosWaiting (this w') <> ∅).
Proof.
  intros w w'.
  assert (Hne : _videosWaiting (this w') <> ∅)
    by (apply anyWaiting_true; reflexivity).
  repeat split; [exact Hne|].
  intros [_ H]. specialize (H Hne). discriminate.
Qed.

(** ** Ready callbacks *)

Lemma filter_recurring_idemp (l : list ReadyEntry) :
  List.filter (fun entry => negb (once entry))
              (List.filter (fun entry => negb (once entry)) l) =
  List.filter (fun entry => negb (once entry)) l.
Proof.
  induction l as [|entry r IH]; simpl; [reflexivity|].
  destruct (once entry) eqn:E; simpl; [exact IH|].
  rewrite E. simpl. rewrite IH. reflexivity.
Qed.

(** [onVideosReady] appends, so the list is in registration order. *)
Lemma onVideosReady_appends (cb : nat) (once_arg : option bool) (w : World) :
  _readyCallbacks (this (onVideosReady cb once_arg w)) =
  _readyCallbacks (this w) ++ [{| callback := cb; once := default false once_arg |}].
Proof. reflexivity. Qed.

(** Stall and ready notifications never remove a recurring callback and
    never add one. *)
Lemma notify_all_recurring (ns : list Notification) (w : World) :
  List.filter (fun entry => negb (once entry))
              (_readyCallbacks (this (notify_all ns w))) =
  List.filter (fun entry => negb (once entry)) (_readyCallbacks (this w)).
Proof.
  revert w. unfold notify_all.
  induction ns as [|n r IH]; intros w; simpl; [reflexivity|].
  rewrite IH. destruct n as [video|video]; simpl.
  - unfold _videoWaiting.
    destruct (setWaiting_spec video w) as (_ & _ & _ & _ & _ & _ & _ & -> & _).
    reflexivity.
  - destruct (decide (video ∈ _videosWaiting (this w))) as [Hin|Hout];
      [|rewrite videoReady_absent by exact Hout; reflexivity].
    destruct (decide (_videosWaiting (this w) ∖ {[video]} = ∅)) as [Hlast|Hothers].
    + destruct (videoReady_all_ready video w Hin Hlast) as (_ & _ & -> & _).
      apply filter_recurring_idemp.
    + rewrite videoReady_others_waiting by assumption. reflexivity.
Qed.

Lemma last_waiting (target : nat) (W : gset nat) :
  W = {[target]} -> target ∈ W /\ W ∖ {[target]} = ∅.
Proof.
  intros ->. split; [apply elem_of_singleton; reflexivity|].
  apply difference_diag_L.
Qed.

(** C8.  The ready notification of the only waiting element calls every
    registered callback once, in the order of the list, which is the order
    of registration; the only effect that can precede the calls is the
    restoring write of the play state.  Afterwards the list holds exactly
    the entries registered with [once] false, in the same order, and at any
    later notification that empties the waiting set, no callback having
    been registered in between, exactly these are called again and all of
    them stay. *)
Theorem ready_callbacks (w : World) (target : nat)
    (Hlast : _videosWaiting (this w) = {[target]}) :
  let calls (l : list ReadyEntry) := (fun entry => CallbackCall (callback entry)) <$> l in
  let recurring := List.filter (fun entry => negb (once entry)) (_readyCallbacks (this w)) in
  let w' := _videoReady target w in
  (forall cb once_arg,
      _readyCallbacks (this (onVideosReady cb once_arg w)) =
      _readyCallbacks (this w) ++ [{| callback := cb; once := default false once_arg |}]) /\
  (exists restored,
      effects w' = effects w ++ restored ++ calls (_readyCallbacks (this w)) /\
      forall cb, CallbackCall cb ∉ restored) /\
  _readyCallbacks (this w') = recurring /\
  (forall entry, entry ∈ _readyCallbacks (this w') <->
                 entry ∈ _readyCallbacks (this w) /\ once entry = false) /\
  (forall later target',
      _readyCallbacks (this later) = _readyCallbacks (this w') ->
      _videosWaiting (this later) = {[target']} ->
      (exists restored,
          effects (_videoReady target' later) =
            effects later ++ restored ++ calls recurring /\
          forall cb, CallbackCall cb ∉ restored) /\
      _readyCallbacks (this (_videoReady target' later)) = recurring).
Proof.
  intros calls recurring w'. subst w'.
  assert (Hgeneral : forall v x, _videosWaiting (this x) = {[v]} ->
            (exists restored,
               effects (_videoReady v x) =
                 effects x ++ restored ++ calls (_readyCallbacks (this x)) /\
               forall cb, CallbackCall cb ∉ restored) /\
            _readyCallbacks (this (_videoReady v x)) =
              List.filter (fun entry => negb (once entry)) (_readyCallbacks (this x))).
  { intros v x Hx. apply last_waiting in Hx as [Hin Hnone].
    destruct (videoReady_all_ready v x Hin Hnone) as (_ & _ & Hcb & _ & He & _).
    cbv zeta in *. split; [|exact Hcb].
    eexists. split; [exact He|].
    intros cb Hcall.
    destruct (backupPlayState (this x));
      [destruct (PlayState_eqb _ _)|];
      try (apply list_elem_of_singleton in Hcall; discriminate);
      exact (not_elem_of_nil _ Hcall). }
  destruct (Hgeneral target w Hlast) as [Hcalls Hkept].
  split; [intros; reflexivity|].
  split; [exact Hcalls|].
  split; [exact Hkept|].
  split.
  { intros entry. rewrite Hkept, elem_of_List_filter, negb_true_iff.
    reflexivity. }
  intros later target' Hsame Hlast'.
  destruct (Hgeneral target' later Hlast') as [Hcalls' Hkept'].
  rewrite Hsame, Hkept in Hcalls', Hkept'.
  fold recurring in Hcalls', Hkept'.
  split; [exact Hcalls'|]. rewrite Hkept'. apply filter_recurring_idemp.
Qed.

Lemma ready_callbacks_witness :
  let w := _videoWaiting 1
             (onVideosReady 12 (Some false)
               (onVideosReady 11 (Some true)
                 (onVideosReady 10 None
                   (registerVideo 1 (fresh (store_in PLAYING) (uniform_page 0 [])))))) in
  let w' := _videoReady 1 w in
  let w'' := _videoReady 1 (_videoWaiting 1 w') in
  _videosWaiting (this w) = {[1%nat]} /\
  _readyCallbacks (this w') = [mkEntry 10 false; mkEntry 12 false] /\
  effects w' = [WaitingAdd 1; StoreSetPlayState WAITING None;
                StoreSetPlayState PLAYING (Some false);
                CallbackCall 10; CallbackCall 11; CallbackCall 12] /\
  effects w'' = effects w' ++
                [WaitingAdd 1; StoreSetPlayState WAITING None;
                 StoreSetPlayState PLAYING (Some false);
                 CallbackCall 10; CallbackCall 12].
Proof.
  intros w w' w''.
  assert (Hlast : _videosWaiting (this w) = {[1%nat]}) by reflexivity.
  split; [exact Hlast|].
  destruct (ready_callbacks w 1 Hlast) as (_ & _ & Hkept & _).
  split; [exact Hkept|].
  split; reflexivity.
Defined.

(** ** Buffer aggregation *)






(** ** Unregistration *)

(** What [unregisterVideo] removes and what it keeps. *)
Lemma unregisterVideo_spec (video : nat) (w : World) :
  let w' := unregisterVideo video w in
  (video ∉ _videos (this w')) /\
  (video ∉ _videosWaiting (this w')) /\
  _videoBufferPositions (this w') = _videoBufferPositions (this w) /\
  (forall other, other <> video ->
     (other ∈ _videos (this w') <-> other ∈ _videos (this w)) /\
     (other ∈ _videosWaiting (this w') <-> other ∈ _videosWaiting (this w))).
Proof.
  simpl. split; [|split; [|split]].
  - rewrite elem_of_List_filter. intros [_ H].
    apply bool_decide_eq_true in H. congruence.
  - rewrite elem_of_difference, elem_of_singleton. tauto.
  - reflexivity.
  - intros other Hne. split.
    + rewrite elem_of_List_filter, bool_decide_eq_true. tauto.
    + rewrite elem_of_difference, elem_of_singleton. tauto.
Qed.

(** C2, the code at the failing input.  Elements 1 and 2 are registered,
    element 2 reports five seconds buffered and is unregistered.  Its entry
    is still in the map of buffer positions, and the next progress
    notification of element 1, which has ten seconds buffered, publishes
    five. *)
Theorem unregister_keeps_buffer_position :
  let w := _videoProgress 2 (registerVideo 2 (registerVideo 1
             (fresh (store_in PLAYING) two_buffers_page))) in
  let w' := unregisterVideo 2 w in
  _videos (this w') = [1%nat] /\
  _videoBufferPositions (this w') !! 2 = Some 5%Q /\
  _videoBufferPositions (this (_videoProgress 1 w')) !! 1 = Some 10%Q /\
  effects (_videoProgress 1 w') = effects w' ++ [StoreSetBufferPosition 5].
Proof. repeat split. Qed.

(** * Further properties of the engine *)

(** ** The handlers that only listen to the master *)

(** Time updates, end of stream and duration changes of an element that is
    not at position 0 of the registry never reach the store: the world is
    left as it is. *)
Theorem slave_notifications_ignored (w : World) (video : nat)
    (Hslave : _videos (this w) !! 0%nat <> Some video) :
  _videoTimeUpdate video w = w /\
  _videoEnded video w = w /\
  _videoDurationChanged video w = w.
Proof.
  assert (Hm : isMaster video w = false).
  { apply not_true_is_false. rewrite isMaster_head. exact Hslave. }
  unfold _videoTimeUpdate, _videoEnded, _videoDurationChanged.
  rewrite Hm. auto.
Qed.

Lemma slave_notifications_ignored_witness :
  let w := registerVideo 2 (registerVideo 1 (fresh (store_in PLAYING) drifting_page)) in
  _videos (this w) !! 0%nat <> Some 2%nat /\
  _videoTimeUpdate 2 w = w /\ _videoEnded 2 w = w /\ _videoDurationChanged 2 w = w.
Proof.
  intros w.
  assert (H : _videos (this w) !! 0%nat <> Some 2%nat) by discriminate.
  split; [exact H|]. exact (slave_notifications_ignored w 2 H).
Defined.

(** While an element waits, time updates and the end of stream of the
    master are dropped, but a duration change of the master is still
    published. *)
Theorem master_notifications_while_waiting (w : World) (video : nat)
    (Hmaster : _videos (this w) !! 0%nat = Some video)
    (Hwaiting : _videosWaiting (this w) <> ∅) :
  _videoTimeUpdate video w = w /\
  _videoEnded video w = w /\
  effects (_videoDurationChanged video w) =
    effects w ++ [StoreSetDuration (duration (page w video))] /\
  StateManager.duration (state (_videoDurationChanged video w)) =
    duration (page w video).
Proof.
  apply isMaster_head in Hmaster. apply anyWaiting_true in Hwaiting.
  unfold _videoTimeUpdate, _videoEnded, _videoDurationChanged.
  rewrite Hmaster, Hwaiting. simpl. auto.
Qed.

Lemma master_notifications_while_waiting_witness :
  let w := _videoWaiting 2 (registerVideo 2 (registerVideo 1
             (fresh (store_in PLAYING) drifting_page))) in
  (_videos (this w) !! 0%nat = Some 1%nat /\ _videosWaiting (this w) <> ∅) /\
  _videoTimeUpdate 1 w = w /\
  _videoEnded 1 w = w /\
  effects (_videoDurationChanged 1 w) = effects w ++ [StoreSetDuration 60].
Proof.
  intros w.
  assert (H1 : _videos (this w) !! 0%nat = Some 1%nat) by reflexivity.
  assert (H2 : _videosWaiting (this w) <> ∅) by (apply anyWaiting_true; reflexivity).
  split; [auto|].
  destruct (master_notifications_while_waiting w 1 H1 H2) as (Ha & Hb & Hc & _).
  auto.
Defined.

(** The end of stream of the master with nobody waiting publishes FINISHED,
    and from then on no stall and no ready notification of any element
    changes the play state: it stays FINISHED. *)
Theorem finished_is_sticky (w : World) (video : nat) (ns : list Notification)
    (Hmaster : _videos (this w) !! 0%nat = Some video)
    (Hnobody : _videosWaiting (this w) = ∅) :
  let ended := _videoEnded video w in
  effects ended = effects w ++ [StoreSetPlayState FINISHED None] /\
  StateManager.playState (state ended) = FINISHED /\
  StateManager.playState (state (notify_all ns ended)) = FINISHED.
Proof.
  apply isMaster_head in Hmaster.
  pose proof (proj2 (anyWaiting_false w) Hnobody) as Hready.
  unfold _videoEnded. rewrite Hmaster, Hready. simpl.
  split; [reflexivity|]. split; [reflexivity|].
  set (ended := setPlayState FINISHED None w).
  assert (Hc : consistent FINISHED (notify_all ns ended)).
  { apply consistent_notify_all; [discriminate|].
    split; [reflexivity | intros H; contradiction]. }
  destruct Hc as [Hidle Hbusy].
  destruct (decide (_videosWaiting (this (notify_all ns ended)) = ∅)) as [He|Hne].
  - exact (Hidle He).
  - exact (proj2 (Hbusy Hne)).
Qed.

Lemma finished_is_sticky_witness :
  let w := registerVideo 1 (fresh (store_in PLAYING) drifting_page) in
  (_videos (this w) !! 0%nat = Some 1%nat /\ _videosWaiting (this w) = ∅) /\
  StateManager.playState
    (state (notify_all [Stall 1; Ready 1] (_videoEnded 1 w))) = FINISHED.
Proof.
  intros w.
  assert (H1 : _videos (this w) !! 0%nat = Some 1%nat) by reflexivity.
  assert (H2 : _videosWaiting (this w) = ∅) by reflexivity.
  split; [auto|].
  exact (proj2 (proj2 (finished_is_sticky w 1 [Stall 1; Ready 1] H1 H2))).
Defined.

(** ** Order and repetition of stall and ready notifications *)

Lemma videoReady_waiting (target : nat) (w : World) :
  _videosWaiting (this (_videoReady target w)) =
  _videosWaiting (this w) ∖ {[target]}.
Proof.
  destruct (decide (target ∈ _videosWaiting (this w))) as [Hin|Hout].
  - destruct (decide (_videosWaiting (this w) ∖ {[target]} = ∅)) as [Hlast|Hothers].
    + destruct (videoReady_all_ready target w Hin Hlast) as (-> & _).
      symmetry. exact Hlast.
    + rewrite videoReady_others_waiting by assumption. reflexivity.
  - rewrite videoReady_absent by exact Hout.
    symmetry. apply difference_disjoint_L, disjoint_singleton_r. exact Hout.
Qed.

(** The three ready signals of an element ([canplay], [canplaythrough],
    [seeked]) share one handler, and a repeated ready notification of the
    same element does nothing: neither the store nor the callbacks see it a
    second time. *)
Theorem repeated_ready_is_ignored (w : World) (target : nat) :
  _videoReady target (_videoReady target w) = _videoReady target w.
Proof.
  apply videoReady_absent. rewrite videoReady_waiting.
  rewrite elem_of_difference, elem_of_singleton. tauto.
Qed.

Lemma difference_swap (W : gset nat) (a b : nat) :
  W ∖ {[a]} ∖ {[b]} = W ∖ {[b]} ∖ {[a]}.
Proof.
  apply set_eq. intros x. rewrite !elem_of_difference, !elem_of_singleton. tauto.
Qed.

(** Ready notifications of two elements commute: whichever arrives first,
    the resulting world, trace included, is the same. *)
Theorem ready_notifications_commute (w : World) (a b : nat) :
  _videoReady a (_videoReady b w) = _videoReady b (_videoReady a w).
Proof.
  destruct (decide (a = b)) as [->|Hab]; [reflexivity|].
  destruct (decide (a ∈ _videosWaiting (this w))) as [Ha|Ha];
    destruct (decide (b ∈ _videosWaiting (this w))) as [Hb|Hb].
  - (* both wait *)
    assert (Hb' : _videosWaiting (this w) ∖ {[b]} <> ∅).
    { intros He. assert (Hin : a ∈ _videosWaiting (this w) ∖ {[b]})
        by (rewrite elem_of_difference, elem_of_singleton; auto).
      rewrite He in Hin. exact (not_elem_of_empty (C := gset nat) a Hin). }
    assert (Ha' : _videosWaiting (this w) ∖ {[a]} <> ∅).
    { intros He. assert (Hin : b ∈ _videosWaiting (this w) ∖ {[a]})
        by (rewrite elem_of_difference, elem_of_singleton; auto).
      rewrite He in Hin. exact (not_elem_of_empty (C := gset nat) b Hin). }
    rewrite (videoReady_others_waiting b w Hb Hb').
    rewrite (videoReady_others_waiting a w Ha Ha').
    unfold _videoReady. cbn [this with_this set_videosWaiting _videosWaiting].
    rewrite (difference_swap _ b a).
    rewrite (bool_decide_eq_true_2 (a ∈ _videosWaiting (this w) ∖ {[b]}))
      by (rewrite elem_of_difference, elem_of_singleton; auto).
    rewrite (bool_decide_eq_true_2 (b ∈ _videosWaiting (this w) ∖ {[a]}))
      by (rewrite elem_of_difference, elem_of_singleton; auto).
    reflexivity.
  - (* only a waits *)
    rewrite (videoReady_absent b w Hb).
    symmetry. apply videoReady_absent. rewrite videoReady_waiting.
    rewrite elem_of_difference. tauto.
  - (* only b waits *)
    rewrite (videoReady_absent a w Ha).
    apply videoReady_absent. rewrite videoReady_waiting.
    rewrite elem_of_difference. tauto.
  - rewrite (videoReady_absent b w Hb), (videoReady_absent a w Ha).
    rewrite (videoReady_absent b w Hb). reflexivity.
Qed.

Lemma manager_ext (m1 m2 : SynchronizationManager) :
  _videos m1 = _videos m2 ->
  _videosWaiting m1 = _videosWaiting m2 ->
  _videoBufferPositions m1 = _videoBufferPositions m2 ->
  _readyCallbacks m1 = _readyCallbacks m2 ->
  backupPlayState m1 = backupPlayState m2 ->
  m1 = m2.
Proof. destruct m1, m2; simpl; intros; subst; reflexivity. Qed.

(** The engine and the store after two stalls in a row, in terms of the
    world before them. *)
Lemma two_stalls (a b : nat) (w : World) :
  let w2 := setWaiting a (setWaiting b w) in
  let playState := StateManager.playState (state w) in
  _videosWaiting (this w2) = {[a]} ∪ ({[b]} ∪ _videosWaiting (this w)) /\
  backupPlayState (this w2) =
    (if decide (_videosWaiting (this w) = ∅ /\ playState <> WAITING)
     then Some playState else backupPlayState (this w)) /\
  state w2 =
    (if decide (playState = FINISHED) then state w
     else StateManager.setPlayState WAITING (state w)) /\
  _videos (this w2) = _videos (this w) /\
  _videoBufferPositions (this w2) = _videoBufferPositions (this w) /\
  _readyCallbacks (this w2) = _readyCallbacks (this w) /\
  page w2 = page w.
Proof.
  intros w2 playState. subst w2.
  destruct (setWaiting_spec b w)
    as (HW1 & Hfirst1 & Hkeep1 & Hnf1 & Hf1 & Hv1 & Hb1 & Hc1 & Hp1).
  destruct (setWaiting_spec a (setWaiting b w))
    as (HW2 & _ & Hkeep2 & Hnf2 & Hf2 & Hv2 & Hb2 & Hc2 & Hp2).
  cbv zeta in *. fold playState in Hfirst1, Hkeep1, Hnf1, Hf1.
  split; [rewrite HW2, HW1; reflexivity|].
  split.
  { rewrite Hkeep2 by (left; rewrite HW1; apply insert_nonempty).
    destruct (decide _) as [[He Hn]|Hn]; [auto|].
    apply Hkeep1. destruct (decide (_videosWaiting (this w) = ∅)); [|auto].
    right. destruct (decide (playState = WAITING)); tauto. }
  split.
  { destruct (decide (playState = FINISHED)) as [Hfin|Hfin].
    - destruct (Hf1 Hfin) as [Hs1 _].
      destruct Hf2 as [Hs2 _]; [rewrite Hs1; exact Hfin|]. congruence.
    - destruct (Hnf1 Hfin) as [Hs1 _].
      destruct Hnf2 as [Hs2 _]; [rewrite Hs1; discriminate|].
      rewrite Hs2, Hs1. reflexivity. }
  repeat split; congruence.
Qed.

(** Stalls of two elements commute as far as the engine, the store and the
    page are concerned; only the order of the trace differs. *)
Theorem stall_notifications_commute (w : World) (a b : nat) :
  this (_videoWaiting a (_videoWaiting b w)) = this (_videoWaiting b (_videoWaiting a w)) /\
  state (_videoWaiting a (_videoWaiting b w)) = state (_videoWaiting b (_videoWaiting a w)) /\
  page (_videoWaiting a (_videoWaiting b w)) = page (_videoWaiting b (_videoWaiting a w)).
Proof.
  unfold _videoWaiting.
  destruct (two_stalls a b w) as (HW & Hb & Hs & Hv & Hp & Hc & Hpage).
  destruct (two_stalls b a w) as (HW' & Hb' & Hs' & Hv' & Hp' & Hc' & Hpage').
  cbv zeta in *.
  split; [|split; congruence].
  apply manager_ext; try congruence.
  rewrite HW, HW'. apply set_eq. intros x.
  rewrite !elem_of_union, !elem_of_singleton. tauto.
Qed.

(** A repeated stall of an element changes neither the engine nor the store:
    in particular the backup taken at the first stall is not overwritten by
    the WAITING state that stall published. *)
Theorem repeated_stall_keeps_engine_and_store (w : World) (video : nat) :
  this (_videoWaiting video (_videoWaiting video w)) = this (_videoWaiting video w) /\
  state (_videoWaiting video (_videoWaiting video w)) = state (_videoWaiting video w) /\
  backupPlayState (this (_videoWaiting video (_videoWaiting video w))) =
    (if decide (_videosWaiting (this w) = ∅ /\
                StateManager.playState (state w) <> WAITING)
     then Some (StateManager.playState (state w))
     else backupPlayState (this w)).
Proof.
  unfold _videoWaiting.
  destruct (two_stalls video video w) as (HW & Hb & Hs & Hv & Hp & Hc & _).
  destruct (setWaiting_spec video w)
    as (HW1 & Hfirst1 & Hkeep1 & Hnf1 & Hf1 & Hv1 & Hb1 & Hc1 & _).
  cbv zeta in *.
  assert (Hbackup : backupPlayState (this (setWaiting video w)) =
            if decide (_videosWaiting (this w) = ∅ /\
                       StateManager.playState (state w) <> WAITING)
            then Some (StateManager.playState (state w))
            else backupPlayState (this w)).
  { destruct (decide _) as [[He Hn]|Hn]; [auto|].
    apply Hkeep1. destruct (decide (_videosWaiting (this w) = ∅)); [|auto].
    right. destruct (decide (StateManager.playState (state w) = WAITING)); tauto. }
  split; [|split; [|exact Hb]].
  - apply manager_ext; try congruence.
    rewrite HW, HW1. apply set_eq. intros x.
    rewrite !elem_of_union, !elem_of_singleton. tauto.
  - rewrite Hs.
    destruct (decide (StateManager.playState (state w) = FINISHED)) as [Hfin|Hfin].
    + destruct (Hf1 Hfin) as [-> _]. reflexivity.
    + destruct (Hnf1 Hfin) as [-> _]. reflexivity.
Qed.

(** ** Registration *)

(** The first registered element is the master and stays the master while
    further elements are registered. *)
Theorem registerVideo_keeps_master (w : World) (video : nat) :
  (_videos (this w) = [] -> isMaster video (registerVideo video w) = true) /\
  (_videos (this w) <> [] ->
     forall x, isMaster x (registerVideo video w) = isMaster x w).
Proof.
  split.
  - intros Hempty. apply isMaster_head. simpl. rewrite Hempty. reflexivity.
  - intros Hsome x.
    destruct (isMaster x w) eqn:E.
    + apply isMaster_head. apply isMaster_head in E. simpl.
      destruct (_videos (this w)); [contradiction|exact E].
    + apply not_true_is_false. intros H. apply isMaster_head in H. simpl in H.
      assert (isMaster x w = true); [|congruence].
      apply isMaster_head. destruct (_videos (this w)); [contradiction|exact H].
Qed.

Lemma filter_other_id (video : nat) (l : list nat) :
  video ∉ l -> List.filter (fun x => bool_decide (x <> video)) l = l.
Proof.
  induction l as [|y r IH]; intros Hout; simpl; [reflexivity|].
  apply not_elem_of_cons in Hout as [Hne Hr].
  rewrite bool_decide_eq_true_2 by congruence. rewrite IH by exact Hr.
  reflexivity.
Qed.

(** Registering an element that is neither registered nor waiting and
    unregistering it again gives back the world as it was. *)
Theorem unregister_undoes_register (w : World) (video : nat)
    (Hnew : video ∉ _videos (this w))
    (Hready : video ∉ _videosWaiting (this w)) :
  unregisterVideo video (registerVideo video w) = w.
Proof.
  unfold unregisterVideo, registerVideo. simpl.
  rewrite List.filter_app, filter_other_id by exact Hnew. simpl.
  rewrite bool_decide_eq_false_2 by tauto.
  rewrite app_nil_r.
  rewrite difference_disjoint_L by (apply disjoint_singleton_r; exact Hready).
  destruct w as [[] ? ? ?]; reflexivity.
Qed.

Lemma unregister_undoes_register_witness :
  let w := registerVideo 1 (fresh (store_in PLAYING) drifting_page) in
  ((2%nat ∉ _videos (this w)) /\ (2%nat ∉ _videosWaiting (this w))) /\
  unregisterVideo 2 (registerVideo 2 w) = w.
Proof.
  intros w.
  assert (H1 : 2%nat ∉ _videos (this w)).
  { intros H. apply list_elem_of_singleton in H. discriminate. }
  assert (H2 : 2%nat ∉ _videosWaiting (this w))
    by exact (not_elem_of_empty (C := gset nat) 2%nat).
  split; [auto|]. exact (unregister_undoes_register w 2 H1 H2).
Defined.

Lemma filter_other_head (video x : nat) (l : list nat) :
  List.filter (fun y => bool_decide (y <> video)) l !! 0%nat = Some x <->
  exists removed rest,
    l = removed ++ x :: rest /\ x <> video /\ Forall (fun y => y = video) removed.
Proof.
  induction l as [|y r IH]; simpl.
  - split; [discriminate|]. intros (removed & rest & H & _).
    destruct removed; discriminate.
  - destruct (decide (y = video)) as [->|Hne].
    + rewrite bool_decide_eq_false_2 by tauto. rewrite IH. split.
      * intros (removed & rest & -> & Hx & Hall).
        exists (video :: removed), rest. repeat split; auto.
      * intros (removed & rest & Heq & Hx & Hall).
        destruct removed as [|z removed]; simpl in Heq.
        -- injection Heq as -> _. contradiction.
        -- injection Heq as _ ->. inversion Hall; subst.
           exists removed, rest. auto.
    + rewrite bool_decide_eq_true_2 by exact Hne. simpl. split.
      * intros [= ->]. exists [], r. repeat split; auto.
      * intros (removed & rest & Heq & Hx & Hall).
        destruct removed as [|z removed]; simpl in Heq.
        -- injection Heq as -> _. reflexivity.
        -- injection Heq as -> _. inversion Hall; subst. contradiction.
Qed.

(** After [unregisterVideo(video)] the master is the first element of the
    registry that is not [video]: an element [x] is the master afterwards
    exactly when [x] is not [video] and only entries of [video] precede its
    first entry.  This holds with elements registered more than once too. *)
Theorem unregisterVideo_promotes_next (w : World) (video x : nat) :
  isMaster x (unregisterVideo video w) = true <->
  exists removed rest,
    _videos (this w) = removed ++ x :: rest /\
    x <> video /\ Forall (fun y => y = video) removed.
Proof.
  rewrite isMaster_head, unregisterVideo_videos. apply filter_other_head.
Qed.

(** Unregistering an element twice is unregistering it once, and the master
    stays the master when another element is unregistered. *)
Theorem unregisterVideo_idempotent (w : World) (video : nat) :
  unregisterVideo video (unregisterVideo video w) = unregisterVideo video w /\
  (forall master, master <> video -> isMaster master w = true ->
                  isMaster master (unregisterVideo video w) = true).
Proof.
  split.
  - unfold unregisterVideo. simpl.
    rewrite filter_other_id.
    + rewrite difference_disjoint_L; [reflexivity|].
      apply disjoint_singleton_r.
      rewrite elem_of_difference, elem_of_singleton. tauto.
    + rewrite elem_of_List_filter, bool_decide_eq_true. tauto.
  - intros master Hne Hm.
    rewrite isMaster_head, unregisterVideo_videos. apply filter_other_head.
    apply isMaster_head in Hm.
    destruct (_videos (this w)) as [|y r] eqn:E; [discriminate|].
    injection Hm as ->. exists [], r. repeat split; auto.
Qed.

(** ** Unregistering a waiting element *)

(** [unregisterVideo] never writes the store and never calls a ready
    callback.  When the only waiting element is unregistered while the store
    is in WAITING, the waiting set is empty afterwards and the store is still
    in WAITING, and ready notifications alone, of whatever elements, change
    nothing any more. *)
Theorem unregister_leaves_waiting_state (w : World) (video : nat)
    (readies : list nat)
    (Hlast : _videosWaiting (this w) = {[video]})
    (Hwaiting : StateManager.playState (state w) = WAITING) :
  let w' := unregisterVideo video w in
  _videosWaiting (this w') = ∅ /\
  state w' = state w /\ effects w' = effects w /\
  backupPlayState (this w') = backupPlayState (this w) /\
  notify_all (Ready <$> readies) w' = w' /\
  StateManager.playState (state (notify_all (Ready <$> readies) w')) = WAITING.
Proof.
  intros w'.
  assert (He : _videosWaiting (this w') = ∅).
  { subst w'. simpl. rewrite Hlast. apply difference_diag_L. }
  assert (Hfix : notify_all (Ready <$> readies) w' = w').
  { clearbody w'. induction readies as [|v r IH]; [reflexivity|].
    unfold notify_all in *. simpl. rewrite videoReady_absent; [exact IH|].
    rewrite He. exact (not_elem_of_empty (C := gset nat) v). }
  split; [exact He|]. split; [reflexivity|]. split; [reflexivity|].
  split; [reflexivity|]. split; [exact Hfix|].
  rewrite Hfix. exact Hwaiting.
Qed.

Lemma unregister_leaves_waiting_state_witness :
  let w := _videoWaiting 2 (registerVideo 2 (registerVideo 1
             (fresh (store_in PLAYING) drifting_page))) in
  let w' := unregisterVideo 2 w in
  (_videosWaiting (this w) = {[2%nat]} /\
   StateManager.playState (state w) = WAITING) /\
  _videosWaiting (this w') = ∅ /\
  StateManager.playState (state (notify_all (Ready <$> [2; 1]%nat) w')) = WAITING.
Proof.
  intros w w'.
  assert (H1 : _videosWaiting (this w) = {[2%nat]}) by reflexivity.
  assert (H2 : StateManager.playState (state w) = WAITING) by reflexivity.
  split; [auto|].
  destruct (unregister_leaves_waiting_state w 2 [2; 1]%nat H1 H2)
    as (Ha & _ & _ & _ & _ & Hb).
  auto.
Defined.

(** ** More about the drift-correction tick *)

Lemma filter_none {A} (q : A -> bool) (l : list A) :
  (forall x, x ∈ l -> q x = false) -> List.filter q l = [].
Proof.
  induction l as [|x r IH]; intros H; simpl; [reflexivity|].
  rewrite (H x) by left. apply IH. intros; apply H; now right.
Qed.

(** The stalls of the playing loop keep the relation [consistent]. *)
Lemma playing_loop_consistent (p0 : PlayState) (master : option nat)
    (l : list nat) (w w' : World) :
  p0 <> WAITING -> consistent p0 w ->
  forEachM (fun video w =>
              let w := setWaiting video w in
              t ← master_currentTime master w;
              Some (writeCurrentTime video t w)) l w = Some w' ->
  consistent p0 w'.
Proof.
  intros Hp0. revert w. induction l as [|v r IH]; intros w Hc Hrun; simpl in Hrun.
  - injection Hrun as <-. exact Hc.
  - destruct (master_currentTime master (setWaiting v w)) as [t|]; [|discriminate].
    simpl in Hrun.
    apply (IH (writeCurrentTime v t (setWaiting v w))); [|exact Hrun].
    exact (consistent_notify p0 (Stall v) w Hp0 Hc).
Qed.

Lemma ready_all_waiting (l : list nat) (w : World) :
  _videosWaiting (this (notify_all (Ready <$> l) w)) =
  _videosWaiting (this w) ∖ list_to_set l.
Proof.
  revert w. unfold notify_all.
  induction l as [|v r IH]; intros w; simpl.
  - symmetry. apply difference_disjoint_L, disjoint_empty_r.
  - rewrite IH, videoReady_waiting. apply set_eq. intros x.
    rewrite !elem_of_difference, elem_of_union, elem_of_singleton. tauto.
Qed.

Section MoreTicks.

Variable SYNC_INTERVAL : Q.
Variable SYNC_DIFF_THRESHOLD : Q.

(** The tick never raises: whatever the registry, the waiting set and the
    store hold, [_syncVideos] returns, and its last effect is the timer of
    the next tick; the registry, the callbacks and the map of buffer
    positions are never changed by it. *)
Theorem syncVideos_never_raises (w : World) :
  exists w' new,
    _syncVideos SYNC_INTERVAL SYNC_DIFF_THRESHOLD w = Some w' /\
    effects w' =
      effects w ++ new ++
      [SetTimeout (times (double SYNC_INTERVAL) (double 1000))] /\
    _videos (this w') = _videos (this w) /\
    _readyCallbacks (this w') = _readyCallbacks (this w) /\
    _videoBufferPositions (this w') = _videoBufferPositions (this w).
Proof.
  unfold _syncVideos.
  destruct (negb (_anyWaiting w) && negb (StateManager.live (state w))).
  2:{ exists (emit (SetTimeout (times (double SYNC_INTERVAL) (double 1000))) w), [].
      repeat split. }
  destruct (_videos (this w)) as [|master rest] eqn:Hreg.
  { exists (emit (SetTimeout (times (double SYNC_INTERVAL) (double 1000))) w), [].
    destruct (PlayState_eqb _ _); simpl; rewrite Hreg; repeat split. }
  change ((master :: rest) !! 0%nat) with (Some master).
  set (m := currentTime (page w master)).
  destruct (PlayState_eqb (StateManager.playState (state w)) PAUSED).
  - rewrite (filterM_total _
               (fun video => negb (Qeq_bool (currentTime (page w video)) m)))
      by reflexivity.
    cbn [mbind option_bind].
    set (drifted := List.filter _ (master :: rest)).
    destruct (paused_loop master m drifted w eq_refl)
      as (w' & Hrun & Ht & Hs & He & _).
    rewrite Hrun. cbn [mbind option_bind].
    eexists _, _. split; [reflexivity|].
    split; [simpl; rewrite He, <- app_assoc; reflexivity|].
    simpl. rewrite Ht, Hreg. repeat split.
  - rewrite (filterM_total _
               (fun video =>
                  greater (Math_abs (minus (double (currentTime (page w video)))
                                           (double m)))
                          (double SYNC_DIFF_THRESHOLD)))
      by reflexivity.
    cbn [mbind option_bind].
    set (drifted := List.filter _ (master :: rest)).
    assert (Hframe : forall l x, exists x',
              forEachM (fun video w =>
                 master_currentTime (Some master) (setWaiting video w) ≫=
                   fun t => Some (writeCurrentTime video t (setWaiting video w)))
                 l x = Some x' /\
              (exists new, effects x' = effects x ++ new) /\
              _videos (this x') = _videos (this x) /\
              _readyCallbacks (this x') = _readyCallbacks (this x) /\
              _videoBufferPositions (this x') = _videoBufferPositions (this x)).
    { induction l as [|v r IH]; intros x; simpl.
      - exists x. split; [reflexivity|]. split; [exists []; now rewrite app_nil_r|].
        repeat split.
      - destruct (setWaiting_spec v x) as (_ & _ & _ & Hnf & Hf & Hv & Hb & Hc & _).
        destruct (IH (writeCurrentTime v (currentTime (page (setWaiting v x) master))
                        (setWaiting v x)))
          as (x' & Hrun & [new Hnew] & Hv' & Hc' & Hb').
        exists x'. split; [exact Hrun|].
        cbv zeta in *. simpl in *. split; [|repeat split; congruence].
        destruct (decide (StateManager.playState (state x) = FINISHED)) as [E|E].
        + destruct (Hf E) as [_ He]. rewrite Hnew, He, <- !app_assoc. eexists; reflexivity.
        + destruct (Hnf E) as [_ He]. rewrite Hnew, He, <- !app_assoc. eexists; reflexivity. }
    destruct (Hframe drifted w) as (w' & Hrun & [new Hnew] & Hv & Hc & Hb).
    rewrite Hrun. cbn [mbind option_bind].
    exists (emit (SetTimeout (times (double SYNC_INTERVAL) (double 1000))) w'), new.
    split; [reflexivity|].
    split; [simpl; rewrite Hnew, <- app_assoc; reflexivity|].
    simpl. rewrite Hreg in *. auto.
Qed.

(** While an element waits, and on a live stream, the tick corrects
    nothing: it only sets the timer of the next tick. *)
Theorem syncVideos_skips (w : World)
    (Hskip : _videosWaiting (this w) <> ∅ \/ StateManager.live (state w) = true) :
  _syncVideos SYNC_INTERVAL SYNC_DIFF_THRESHOLD w =
  Some (emit (SetTimeout (times (double SYNC_INTERVAL) (double 1000))) w).
Proof.
  unfold _syncVideos.
  destruct Hskip as [Hw|Hl].
  - apply anyWaiting_true in Hw. rewrite Hw. reflexivity.
  - rewrite Hl, andb_false_r. reflexivity.
Qed.

Lemma paused_tick_nothing_to_do (w : World) (master : nat) (rest : list nat) :
  _videosWaiting (this w) = ∅ ->
  StateManager.live (state w) = false ->
  StateManager.playState (state w) = PAUSED ->
  _videos (this w) = master :: rest ->
  (forall x, x ∈ master :: rest ->
     Qeq_bool (currentTime (page w x)) (currentTime (page w master)) = true) ->
  _syncVideos SYNC_INTERVAL SYNC_DIFF_THRESHOLD w =
  Some (emit (SetTimeout (times (double SYNC_INTERVAL) (double 1000))) w).
Proof.
  intros Hnobody Hlive Hpaused Hreg Hsame.
  apply anyWaiting_false in Hnobody.
  unfold _syncVideos. rewrite Hnobody, Hlive, Hpaused, Hreg.
  cbn [negb andb]. change ((master :: rest) !! 0%nat) with (Some master).
  change (PlayState_eqb PAUSED PAUSED) with true. cbv iota.
  rewrite (filterM_total _
             (fun video => negb (Qeq_bool (currentTime (page w video))
                                          (currentTime (page w master)))))
    by reflexivity.
  rewrite filter_none by (intros x Hx; rewrite (Hsame x Hx); reflexivity).
  reflexivity.
Qed.

(** A tick of a paused player leaves every registered element at a position
    equal to the master's, so the next tick has nothing to correct: it only
    sets its timer. *)
Theorem paused_tick_is_idempotent (w : World)
    (Hnobody : _videosWaiting (this w) = ∅)
    (Hseekable : StateManager.live (state w) = false)
    (Hpaused : StateManager.playState (state w) = PAUSED) :
  exists w1,
    _syncVideos SYNC_INTERVAL SYNC_DIFF_THRESHOLD w = Some w1 /\
    (forall master video,
        _videos (this w) !! 0%nat = Some master ->
        video ∈ _videos (this w) ->
        (currentTime (page w1 video) == currentTime (page w master))%Q) /\
    _syncVideos SYNC_INTERVAL SYNC_DIFF_THRESHOLD w1 =
      Some (emit (SetTimeout (times (double SYNC_INTERVAL) (double 1000))) w1).
Proof.
  pose proof (proj2 (anyWaiting_false w) Hnobody) as Hready.
  destruct (_videos (this w)) as [|master rest] eqn:Hreg.
  { exists (emit (SetTimeout (times (double SYNC_INTERVAL) (double 1000))) w).
    assert (Htick : forall x, this x = this w -> state x = state w ->
              _syncVideos SYNC_INTERVAL SYNC_DIFF_THRESHOLD x =
              Some (emit (SetTimeout (times (double SYNC_INTERVAL) (double 1000))) x)).
    { intros x Ht Hs. unfold _syncVideos, _anyWaiting.
      rewrite Ht, Hs. fold (_anyWaiting w).
      rewrite Hready, Hseekable, Hpaused, Hreg. reflexivity. }
    split; [apply Htick; reflexivity|].
    split; [intros ? ? [=]|]. apply Htick; reflexivity. }
  set (m := currentTime (page w master)).
  set (differs := fun video => negb (Qeq_bool (currentTime (page w video)) m)).
  destruct (paused_loop master m (List.filter differs (master :: rest)) w eq_refl)
    as (w' & Hrun & Ht & Hs & He & Hin & Hout).
  exists (emit (SetTimeout (times (double SYNC_INTERVAL) (double 1000))) w').
  assert (Hmm : Qeq_bool m m = true) by (apply Qeq_bool_iff; reflexivity).
  assert (Hafter : forall x, x ∈ master :: rest ->
            Qeq_bool (currentTime (page w' x)) m = true).
  { intros x Hx.
    destruct (decide (x ∈ List.filter differs (master :: rest))) as [Hd|Hd].
    - rewrite (Hin x Hd). exact Hmm.
    - rewrite (Hout x Hd).
      destruct (Qeq_bool (currentTime (page w x)) m) eqn:E; [reflexivity|].
      exfalso. apply Hd. apply elem_of_List_filter. split; [exact Hx|].
      unfold differs. rewrite E. reflexivity. }
  assert (Hmaster : currentTime (page w' master) = m).
  { apply Hout. rewrite elem_of_List_filter. unfold differs. fold m.
    rewrite Hmm. intros [_ ?]; discriminate. }
  split; [|split].
  - unfold _syncVideos. rewrite Hready, Hseekable, Hpaused, Hreg.
    cbn [negb andb]. change ((master :: rest) !! 0%nat) with (Some master).
    change (PlayState_eqb PAUSED PAUSED) with true. cbv iota.
    rewrite (filterM_total _ differs) by reflexivity.
    cbn [mbind option_bind]. rewrite Hrun. reflexivity.
  - intros master' video [= <-] Hvideo. simpl.
    apply Qeq_bool_iff. apply Hafter. exact Hvideo.
  - apply (paused_tick_nothing_to_do _ master rest); simpl.
    + rewrite Ht. exact Hnobody.
    + rewrite Hs. exact Hseekable.
    + rewrite Hs. exact Hpaused.
    + rewrite Ht. exact Hreg.
    + intros x Hx. rewrite Hmaster. apply Hafter. exact Hx.
Qed.

(** A correction is transparent for the play state when the tick starts
    with nobody waiting on a store that is not live and whose play state is
    neither PAUSED nor WAITING: the tick publishes WAITING for the slaves it
    moves (unless the play state is FINISHED), and once every element of
    the waiting set has reported ready, the waiting set is empty and the
    play state is again what it was before the tick. *)
Theorem correction_is_transparent (w : World) (readies : list nat)
    (Hnobody : _videosWaiting (this w) = ∅)
    (Hseekable : StateManager.live (state w) = false)
    (Hplaying : StateManager.playState (state w) <> PAUSED)
    (Hstate : StateManager.playState (state w) <> WAITING) :
  exists w1,
    _syncVideos SYNC_INTERVAL SYNC_DIFF_THRESHOLD w = Some w1 /\
    (_videosWaiting (this w1) <> ∅ ->
       StateManager.playState (state w) <> FINISHED ->
       StateManager.playState (state w1) = WAITING) /\
    ((forall video, video ∈ _videosWaiting (this w1) -> video ∈ readies) ->
       let w2 := notify_all (Ready <$> readies) w1 in
       _videosWaiting (this w2) = ∅ /\
       StateManager.playState (state w2) = StateManager.playState (state w)).
Proof.
  set (p0 := StateManager.playState (state w)) in *.
  pose proof (proj2 (anyWaiting_false w) Hnobody) as Hready.
  assert (Hc : consistent p0 w)
    by (split; [reflexivity | intros; contradiction]).
  assert (Htick : exists w1,
            _syncVideos SYNC_INTERVAL SYNC_DIFF_THRESHOLD w = Some w1 /\
            consistent p0 w1).
  { unfold _syncVideos. fold p0. rewrite Hready, Hseekable.
    rewrite (proj2 (PlayState_eqb_neq _ _) Hplaying). cbn [negb andb].
    destruct (_videos (this w)) as [|master rest] eqn:Hreg.
    { eexists. split; [reflexivity | exact Hc]. }
    change ((master :: rest) !! 0%nat) with (Some master).
    set (m := currentTime (page w master)).
    rewrite (filterM_total _
               (fun video =>
                  greater (Math_abs (minus (double (currentTime (page w video)))
                                           (double m)))
                          (double SYNC_DIFF_THRESHOLD)))
      by reflexivity.
    cbn [mbind option_bind].
    set (drifted := List.filter _ (master :: rest)).
    destruct (playing_loop master m drifted w eq_refl) as (w' & Hrun & _).
    pose proof (playing_loop_consistent p0 (Some master) drifted w w' Hstate Hc Hrun)
      as Hc'.
    cbv zeta in Hrun. rewrite Hrun. cbn [mbind option_bind].
    eexists. split; [reflexivity | exact Hc']. }
  destruct Htick as (w1 & Hrun & Hc1).
  exists w1. split; [exact Hrun|]. split.
  - intros Hne Hnf. destruct Hc1 as [_ Hbusy].
    destruct (Hbusy Hne) as [_ Hps]. rewrite Hps.
    rewrite (proj2 (PlayState_eqb_neq _ _) Hnf). reflexivity.
  - intros Hall w2.
    assert (He : _videosWaiting (this w2) = ∅).
    { subst w2. rewrite ready_all_waiting. apply set_eq. intros x.
      rewrite elem_of_difference, elem_of_list_to_set.
      split; [intros [Hx Hn]; exfalso; auto|].
      intros Hx. exfalso. exact (not_elem_of_empty (C := gset nat) x Hx). }
    split; [exact He|].
    destruct (consistent_notify_all p0 (Ready <$> readies) w1 Hstate Hc1)
      as [Hidle _].
    exact (Hidle He).
Qed.

End MoreTicks.

Lemma syncVideos_skips_witness :
  let w := _videoWaiting 2 (registerVideo 2 (registerVideo 1
             (fresh (store_in PLAYING) drifting_page))) in
  (_videosWaiting (this w) <> ∅ \/ StateManager.live (state w) = true) /\
  _syncVideos (1 # 10) (1 # 10) w =
  Some (emit (SetTimeout (times (double (1 # 10)) (double 1000))) w).
Proof.
  intros w.
  assert (H : _videosWaiting (this w) <> ∅ \/ StateManager.live (state w) = true)
    by (left; apply anyWaiting_true; reflexivity).
  split; [exact H|]. exact (syncVideos_skips (1 # 10) (1 # 10) w H).
Defined.

Lemma paused_tick_is_idempotent_witness :
  let w := registerVideo 3 (registerVideo 2 (registerVideo 1
             (fresh (store_in PAUSED) drifting_page))) in
  (_videosWaiting (this w) = ∅ /\ StateManager.live (state w) = false /\
   StateManager.playState (state w) = PAUSED) /\
  exists w1,
    _syncVideos (1 # 10) (1 # 10) w = Some w1 /\
    _syncVideos (1 # 10) (1 # 10) w1 =
      Some (emit (SetTimeout (times (double (1 # 10)) (double 1000))) w1).
Proof.
  intros w.
  assert (H1 : _videosWaiting (this w) = ∅) by reflexivity.
  assert (H2 : StateManager.live (state w) = false) by reflexivity.
  assert (H3 : StateManager.playState (state w) = PAUSED) by reflexivity.
  split; [auto|].
  destruct (paused_tick_is_idempotent (1 # 10) (1 # 10) w H1 H2 H3)
    as (w1 & Hrun & _ & Hagain).
  exists w1. auto.
Defined.

Lemma correction_is_transparent_witness :
  let w := registerVideo 3 (registerVideo 2 (registerVideo 1
             (fresh (store_in PLAYING) drifting_page))) in
  (_videosWaiting (this w) = ∅ /\ StateManager.live (state w) = false /\
   StateManager.playState (state w) <> PAUSED /\
   StateManager.playState (state w) <> WAITING) /\
  exists w1,
    _syncVideos (1 # 10) (1 # 10) w = Some w1 /\
    _videosWaiting (this (notify_all (Ready <$> [3%nat]) w1)) = ∅ /\
    StateManager.playState (state (notify_all (Ready <$> [3%nat]) w1)) = PLAYING.
Proof.
  intros w.
  assert (H1 : _videosWaiting (this w) = ∅) by reflexivity.
  assert (H2 : StateManager.live (state w) = false) by reflexivity.
  assert (H3 : StateManager.playState (state w) <> PAUSED) by discriminate.
  assert (H4 : StateManager.playState (state w) <> WAITING) by discriminate.
  split; [auto|].
  destruct (correction_is_transparent (1 # 10) (1 # 10) w [3%nat] H1 H2 H3 H4)
    as (w1 & Hrun & _ & Hall).
  exists w1. split; [exact Hrun|]. apply Hall.
  assert (Hc : (fun x => _videosWaiting (this x)) <$> _syncVideos (1 # 10) (1 # 10) w
               = Some {[3%nat]}) by reflexivity.
  rewrite Hrun in Hc. injection Hc as Hc. rewrite Hc.
  intros video Hv. apply elem_of_singleton in Hv as ->. left.
Defined.

(** ** More about buffering progress *)

(** The loop of [_videoProgress] over the indices below [n]: it answers the
    end of the range with the greatest index below [n] that starts at or
    before [now], and nothing when every range below [n] starts after. *)
Lemma currentBuffer_below (ranges : list (Q * Q)) (now : Q) (n : nat) :
  (n <= length ranges)%nat ->
  match currentBuffer ranges now n with
  | Some range_end =>
      exists i range_start,
        (i < n)%nat /\ ranges !! i = Some (range_start, range_end) /\
        (range_start <= now)%Q /\
        forall j s e, (i < j < n)%nat -> ranges !! j = Some (s, e) -> (now < s)%Q
  | None =>
      forall j s e, (j < n)%nat -> ranges !! j = Some (s, e) -> (now < s)%Q
  end.
Proof.
  induction n as [|i IH]; intros Hn; simpl.
  - intros j s e Hj. lia.
  - destruct (lookup_lt_is_Some_2 ranges i) as [[s e] Hi]; [lia|].
    rewrite Hi. destruct (Qle_bool s now) eqn:E.
    + apply Qle_bool_iff in E. exists i, s. repeat split; auto. intros; lia.
    + assert (Hlt : (now < s)%Q).
      { apply Qnot_le_lt. intros H. apply Qle_bool_iff in H. congruence. }
      specialize (IH ltac:(lia)).
      destruct (currentBuffer ranges now i) as [range_end|].
      * destruct IH as (k & s' & Hk & Hlook & Hle & Hlater).
        exists k, s'. repeat split; auto.
        intros j s'' e'' Hj Hlook'.
        destruct (decide (j = i)) as [->|Hne]; [congruence|].
        apply (Hlater j s'' e''); [lia | exact Hlook'].
      * intros j s' e' Hj Hlook.
        destruct (decide (j = i)) as [->|Hne]; [congruence|].
        apply (IH j s' e'); [lia | exact Hlook].
Qed.

(** The buffer position a progress notification records for the reporting
    element is the end of the last of its buffered ranges that starts at or
    before its current position, wherever that range ends; when every range
    starts after the current position, nothing is recorded and an older
    entry of the element stays.  The entries of all other elements are kept
    as they are, and the registry, the waiting set, the backup and the play
    state are not touched. *)
Theorem progress_records_last_started_range (w : World) (video : nat) :
  let ranges := buffered (page w video) in
  let now := currentTime (page w video) in
  let w' := _videoProgress video w in
  (last_started_range ranges now (_videoBufferPositions (this w') !! video) \/
   (all_start_later ranges now /\
    _videoBufferPositions (this w') !! video =
    _videoBufferPositions (this w) !! video)) /\
  (forall other, other <> video ->
     _videoBufferPositions (this w') !! other =
     _videoBufferPositions (this w) !! other) /\
  _videos (this w') = _videos (this w) /\
  _videosWaiting (this w') = _videosWaiting (this w) /\
  backupPlayState (this w') = backupPlayState (this w) /\
  StateManager.playState (state w') = StateManager.playState (state w).
Proof.
  intros ranges now w'.
  pose proof (currentBuffer_below ranges now (length ranges) (le_n _)) as Hloop.
  set (recorded := currentBuffer ranges now (length ranges)) in *.
  set (w1 := match recorded with
             | Some range_end =>
                 with_this (set_videoBufferPositions
                   (<[video := range_end]> (_videoBufferPositions (this w)))
                   (this w)) w
             | None => w
             end).
  assert (Hshape : this w' = this w1 \/ (ranges = [] /\ this w' = this w)).
  { subst w'. unfold _videoProgress. fold ranges now recorded w1.
    destruct (0 <? length ranges)%nat eqn:Elen.
    - left. destruct (0 <? size _)%nat; [|reflexivity].
      destruct (Math_min _); reflexivity.
    - right. apply Nat.ltb_ge in Elen. split; [|reflexivity].
      destruct ranges; [reflexivity | simpl in Elen; lia]. }
  assert (Hps : StateManager.playState (state w') = StateManager.playState (state w)).
  { subst w'. unfold _videoProgress. fold ranges now recorded w1.
    destruct (0 <? length ranges)%nat; [|reflexivity].
    assert (Hs1 : state w1 = state w) by (subst w1; destruct recorded; reflexivity).
    destruct (0 <? size _)%nat; [|rewrite Hs1; reflexivity].
    destruct (Math_min _); simpl; rewrite Hs1; reflexivity. }
  destruct Hshape as [Hthis|[Hnil Hthis]].
  - rewrite Hthis. subst w1. destruct recorded as [range_end|].
    + simpl. split; [|repeat split; auto].
      * left. rewrite lookup_insert_eq.
        destruct Hloop as (i & s & Hi & Hlook & Hle & Hlater).
        exists i, s, range_end. split; [reflexivity|].
        split; [exact Hlook|]. split; [exact Hle|].
        intros j s' e' Hj Hlook'. apply (Hlater j s' e'); [|exact Hlook'].
        split; [exact Hj|]. apply lookup_lt_is_Some. eauto.
      * intros other Hne. apply lookup_insert_ne. congruence.
    + split; [|repeat split; auto]. right. split; [|reflexivity].
      intros j s e Hlook. apply (Hloop j s e); [|exact Hlook].
      apply lookup_lt_is_Some. eauto.
  - rewrite Hthis. split; [|repeat split; auto]. right. split; [|reflexivity].
    intros j s e Hlook. rewrite Hnil, lookup_nil in Hlook. discriminate.
Qed.

(** A progress notification of an element without buffered ranges changes
    nothing at all; and one whose ranges all start after the current
    position, arriving while no buffer position is recorded, publishes
    nothing either. *)
Theorem progress_without_information (w : World) (video : nat) :
  (buffered (page w video) = [] -> _videoProgress video w = w) /\
  ((forall s e, (s, e) ∈ buffered (page w video) ->
        (currentTime (page w video) < s)%Q) ->
   _videoBufferPositions (this w) = ∅ ->
   _videoProgress video w = w).
Proof.
  split.
  - intros Hnil. unfold _videoProgress. rewrite Hnil. reflexivity.
  - intros Hlater Hempty. unfold _videoProgress.
    destruct (0 <? length _)%nat; [|reflexivity].
    pose proof (currentBuffer_below (buffered (page w video))
                  (currentTime (page w video)) _ (le_n _)) as Hloop.
    destruct (currentBuffer _ _ _) as [range_end|].
    + destruct Hloop as (i & s & _ & Hlook & Hle & _).
      exfalso. apply (Qlt_not_le _ _ (Hlater s range_end
                        (proj2 (list_elem_of_lookup _ _) (ex_intro _ i Hlook)))).
      exact Hle.
    + rewrite Hempty. reflexivity.
Qed.

Lemma progress_without_information_witness :
  let w := registerVideo 1 (fresh (store_in PLAYING) (uniform_page 3 [(5, 9)]%Q)) in
  _videoBufferPositions (this w) = ∅ /\ _videoProgress 1 w = w.
Proof.
  intros w.
  assert (He : _videoBufferPositions (this w) = ∅) by reflexivity.
  split; [exact He|].
  apply (proj2 (progress_without_information w 1)); [|exact He].
  intros s e Hin. apply list_elem_of_singleton in Hin. injection Hin as -> ->.
  reflexivity.
Defined.

(** * The cue and the chapter under the playhead *)

Lemma find_app_first {A} (p : A -> bool) (l1 l2 : list A) :
  List.find p (l1 ++ l2) =
  match List.find p l1 with
  | Some x => Some x
  | None => List.find p l2
  end.
Proof.
  induction l1 as [|a l1 IH]; simpl; [reflexivity|].
  destruct (p a); [reflexivity | exact IH].
Qed.

(** [slice().reverse().find(p)] finds the last element that satisfies [p]. *)
Lemma find_rev_last {A} (p : A -> bool) (l : list A) :
  match List.find p (rev l) with
  | Some x =>
      exists earlier later,
        l = earlier ++ x :: later /\ p x = true /\
        forall y, y ∈ later -> p y = false
  | None => forall y, y ∈ l -> p y = false
  end.
Proof.
  induction l as [|a l IH]; simpl.
  - intros y Hy. inversion Hy.
  - rewrite find_app_first.
    destruct (List.find p (rev l)) as [x|].
    + destruct IH as (earlier & later & -> & Hx & Hlater).
      exists (a :: earlier), later. auto.
    + simpl. destruct (p a) eqn:Ea.
      * exists [], l. auto.
      * intros y Hy. apply elem_of_cons in Hy as [->|Hy]; auto.
Qed.

Lemma find_filter_implied {A} (p q : A -> bool) (l : list A) :
  (forall x, p x = true -> q x = true) ->
  List.find p (List.filter q l) = List.find p l.
Proof.
  intros Himp. induction l as [|a l IH]; simpl; [reflexivity|].
  destruct (q a) eqn:Eq; simpl.
  - rewrite IH. reflexivity.
  - destruct (p a) eqn:Ep; [|exact IH].
    rewrite (Himp a Ep) in Eq. discriminate.
Qed.

Lemma filter_rev_comm {A} (q : A -> bool) (l : list A) :
  rev (List.filter q l) = List.filter q (rev l).
Proof.
  induction l as [|a l IH]; simpl; [reflexivity|].
  rewrite List.filter_app. simpl.
  destruct (q a); simpl; rewrite IH; [reflexivity | now rewrite app_nil_r].
Qed.

Lemma spans_test (position : Q) (cue : InteractiveTranscript.Cue) :
  Qle_bool (InteractiveTranscript.startTime cue) position &&
  Qltb position (InteractiveTranscript.endTime cue) = true <->
  cue_spans position cue.
Proof.
  unfold cue_spans. rewrite andb_true_iff, Qle_bool_iff, Qltb_lt. reflexivity.
Qed.

(** The active cue of the transcript is the last cue of the list that spans
    the position: when cues overlap, the later one is shown.  There is no
    active cue exactly when no cue spans the position, and none without
    captions. *)
Theorem active_cue_is_last_spanning
    (captions : list InteractiveTranscript.Cue) (position : Q) :
  match InteractiveTranscript._getActiveCue (Some captions) position with
  | Some cue =>
      exists earlier later,
        captions = earlier ++ cue :: later /\
        cue_spans position cue /\
        forall other, other ∈ later -> ~ cue_spans position other
  | None => forall cue, cue ∈ captions -> ~ cue_spans position cue
  end /\
  InteractiveTranscript._getActiveCue None position = None.
Proof.
  split; [|reflexivity]. unfold InteractiveTranscript._getActiveCue.
  pose proof (find_rev_last
    (fun cue => Qle_bool (InteractiveTranscript.startTime cue) position &&
                Qltb position (InteractiveTranscript.endTime cue)) captions) as H.
  destruct (List.find _ (rev captions)) as [cue|].
  - destruct H as (earlier & later & -> & Hcue & Hlater).
    exists earlier, later. split; [reflexivity|].
    split; [apply spans_test; exact Hcue|].
    intros other Hin Hspans. apply spans_test in Hspans.
    rewrite (Hlater other Hin) in Hspans. discriminate.
  - intros cue Hin Hspans. apply spans_test in Hspans.
    rewrite (H cue Hin) in Hspans. discriminate.
Qed.

Lemma find_filter_first {A} (p q : A -> bool) (l : list A) (x : A) :
  List.find p l = Some x -> q x = true ->
  List.find p (List.filter q l) = Some x.
Proof.
  intros Hfind Hq. induction l as [|a l IH]; simpl in *; [discriminate|].
  destruct (p a) eqn:Ep.
  - injection Hfind as ->. rewrite Hq. simpl. rewrite Ep. reflexivity.
  - destruct (q a); simpl; [rewrite Ep|]; apply IH; exact Hfind.
Qed.

Lemma unset_or_true (bound : option Q) (test : Q -> bool) :
  InteractiveTranscript.unset_or bound test = true <->
  forall q, trim_set bound q -> test q = true.
Proof.
  unfold InteractiveTranscript.unset_or, trim_set.
  destruct bound as [b|]; [|split; [intros _ q [[=] _] | reflexivity]].
  destruct (Qeq_bool b 0) eqn:E0; simpl.
  - apply Qeq_bool_iff in E0. split; [|reflexivity].
    intros _ q [[= <-] Hn]. contradiction.
  - split.
    + intros Ht q [[= <-] _]. exact Ht.
    + intros H. apply H. split; [reflexivity|].
      intros Hz. apply Qeq_bool_iff in Hz. congruence.
Qed.

(** The trim window of the visible captions is half open.  For a position
    at or after a set trim start and strictly before a set trim end, the
    active cue among the visible captions is the active cue among all
    captions.  At any position, the active cue among all captions is also
    the active cue among the visible ones exactly when it ends after a set
    trim start and starts before a set trim end: a cue that starts at the
    trim end is filtered out, also when the position is the trim end. *)
Theorem trimming_keeps_active_cue
    (captions : option (list InteractiveTranscript.Cue))
    (trimStart trimEnd : option Q) (position : Q) :
  let visible :=
    InteractiveTranscript._getVisibleCaptions captions trimStart trimEnd in
  (inside_trim trimStart trimEnd position ->
   InteractiveTranscript._getActiveCue visible position =
   InteractiveTranscript._getActiveCue captions position) /\
  (forall cue,
     InteractiveTranscript._getActiveCue captions position = Some cue ->
     InteractiveTranscript._getActiveCue visible position = Some cue <->
     (forall ts, trim_set trimStart ts ->
                 (ts < InteractiveTranscript.endTime cue)%Q) /\
     (forall te, trim_set trimEnd te ->
                 (InteractiveTranscript.startTime cue < te)%Q)).
Proof.
  intros visible. subst visible.
  destruct captions as [captions|]; [|split; [reflexivity | intros cue [=]]].
  simpl. rewrite filter_rev_comm. split.
  - intros Hinside. apply find_filter_implied.
    intros cue Hspans. apply spans_test in Hspans as [Hstart Hend].
    destruct Hinside as [Hts Hte].
    apply andb_true_iff. split; apply unset_or_true; intros q Hq; apply Qltb_lt.
    + eapply Qle_lt_trans; [apply Hts; exact Hq | exact Hend].
    + eapply Qle_lt_trans; [exact Hstart | apply Hte; exact Hq].
  - intros cue Hactive.
    set (shown := fun cue : InteractiveTranscript.Cue =>
           InteractiveTranscript.unset_or trimStart
             (fun ts => Qltb ts (InteractiveTranscript.endTime cue)) &&
           InteractiveTranscript.unset_or trimEnd
             (fun te => Qltb (InteractiveTranscript.startTime cue) te)).
    assert (Hshown : shown cue = true <->
              (forall ts, trim_set trimStart ts ->
                          (ts < InteractiveTranscript.endTime cue)%Q) /\
              (forall te, trim_set trimEnd te ->
                          (InteractiveTranscript.startTime cue < te)%Q)).
    { unfold shown. rewrite andb_true_iff, !unset_or_true.
      split; intros [H1 H2]; split; intros q Hq; apply Qltb_lt; auto. }
    rewrite <- Hshown. split.
    + intros Hvisible. apply find_some in Hvisible as [Hin _].
      apply filter_In in Hin as [_ Hq]. exact Hq.
    + intros Hq. apply find_filter_first; assumption.
Qed.

Lemma trimming_keeps_active_cue_witness :
  let captions := Some [InteractiveTranscript.mkCue "a" 0 4 "one";
                        InteractiveTranscript.mkCue "b" 4 9 "two";
                        InteractiveTranscript.mkCue "c" 9 12 "three";
                        InteractiveTranscript.mkCue "d" 12 15 "four"] in
  let visible :=
    InteractiveTranscript._getVisibleCaptions captions (Some 5%Q) (Some 12%Q) in
  inside_trim (Some 5%Q) (Some 12%Q) 6%Q /\
  InteractiveTranscript._getActiveCue visible 6 =
    Some (InteractiveTranscript.mkCue "b" 4 9 "two") /\
  InteractiveTranscript._getActiveCue captions 12 =
    Some (InteractiveTranscript.mkCue "d" 12 15 "four") /\
  InteractiveTranscript._getActiveCue visible 12 = None.
Proof.
  intros captions visible.
  assert (H : inside_trim (Some 5%Q) (Some 12%Q) 6%Q).
  { split; intros q [[= <-] _]; [discriminate | reflexivity]. }
  split; [exact H|]. split; [|split; reflexivity].
  unfold visible.
  rewrite (proj1 (trimming_keeps_active_cue captions (Some 5%Q) (Some 12%Q) 6%Q) H).
  reflexivity.
Defined.

(** The active chapter is the last chapter of the list that starts at or
    before the position, and there is none when every chapter starts
    later.  When the chapters are listed by ascending start position, no
    chapter that has started starts after the active one. *)
Theorem active_chapter_is_last_started
    (chapters : list AnalyticsManager.Chapter) (position : Q) :
  match AnalyticsManager._getActiveChapter (Some chapters) position with
  | Some chapter =>
      (exists earlier later,
          chapters = earlier ++ chapter :: later /\
          (AnalyticsManager.startPosition chapter <= position)%Q /\
          forall other, other ∈ later ->
                        (position < AnalyticsManager.startPosition other)%Q) /\
      (starts_ascending chapters ->
       forall other, other ∈ chapters ->
         (AnalyticsManager.startPosition other <= position)%Q ->
         (AnalyticsManager.startPosition other <=
          AnalyticsManager.startPosition chapter)%Q)
  | None =>
      forall other, other ∈ chapters ->
                    (position < AnalyticsManager.startPosition other)%Q
  end.
Proof.
  unfold AnalyticsManager._getActiveChapter.
  pose proof (find_rev_last
    (fun chapter => Qle_bool (AnalyticsManager.startPosition chapter) position)
    chapters) as H.
  assert (Hlater : forall c,
            Qle_bool (AnalyticsManager.startPosition c) position = false ->
            (position < AnalyticsManager.startPosition c)%Q).
  { intros c Hc. apply Qnot_le_lt. intros Hle. apply Qle_bool_iff in Hle. congruence. }
  destruct (List.find _ (rev chapters)) as [chapter|]; [|auto].
  destruct H as (earlier & later & -> & Hch & Hl).
  apply Qle_bool_iff in Hch. split.
  - exists earlier, later. auto.
  - intros Hsorted other Hin Hstarted.
    apply elem_of_app in Hin as [Hin|Hin].
    + apply list_elem_of_lookup in Hin as [i Hi].
      apply (Hsorted i (length earlier) other chapter).
      * apply lookup_lt_Some in Hi. lia.
      * rewrite lookup_app_l; [exact Hi | apply (lookup_lt_Some _ _ _ Hi)].
      * rewrite lookup_app_r by lia. rewrite Nat.sub_diag. reflexivity.
    + apply elem_of_cons in Hin as [->|Hin]; [apply Qle_refl|].
      exfalso. apply (Qlt_not_le _ _ (Hlater other (Hl other Hin))). exact Hstarted.
Qed.

(** Between the second and the third of three chapters the second one is
    active; before the first chapter starts none is. *)
Example active_chapter_examples :
  AnalyticsManager._getActiveChapter (Some three_chapters) 45 =
    Some (AnalyticsManager.mkChapter "Setup" 30) /\
  AnalyticsManager._getActiveChapter (Some three_chapters) (-1) = None.
Proof. split; reflexivity. Qed.

(** * The fullscreen manager *)

Lemma filter_other_all {A} `{EqDecision A} (x : A) (l : list A) :
  x ∉ l -> List.filter (fun y => bool_decide (y <> x)) l = l.
Proof.
  induction l as [|y r IH]; intros Hout; simpl; [reflexivity|].
  apply not_elem_of_cons in Hout as [Hne Hr].
  rewrite bool_decide_eq_true_2 by congruence. rewrite IH by exact Hr.
  reflexivity.
Qed.

Lemma filter_other_elem {A} `{EqDecision A} (x y : A) (l : list A) :
  y ∈ List.filter (fun z => bool_decide (z <> x)) l <-> y ∈ l /\ y <> x.
Proof. rewrite elem_of_List_filter, bool_decide_eq_true. reflexivity. Qed.

(** On a browser without fullscreen methods ([enterFullscreen] finds none on
    the element, [exitFullscreen] none on the document) the fullscreen is
    faked and undone again: entering adds the class [fake-fullscreen] and
    fixes the body, calling no native method; leaving then gives back the
    body position and leaves the class list without [fake-fullscreen].
    That is the class list from before exactly when the element did not
    carry the class already. *)
Theorem fake_fullscreen_round_trip (w : FullscreenManager.World)
    (Helement : FullscreenManager.element w = FullscreenManager.no_element_api)
    (Hdocument : FullscreenManager.document w = FullscreenManager.no_document_api) :
  let full := FullscreenManager.enterFullscreen w in
  let back := FullscreenManager.exitFullscreen full in
  "fake-fullscreen" ∈ FullscreenManager.classList full /\
  FullscreenManager.bodyPosition full = "fixed" /\
  FullscreenManager.calls full = FullscreenManager.calls w /\
  FullscreenManager.classList back =
    FullscreenManager.classList_remove "fake-fullscreen"
      (FullscreenManager.classList w) /\
  (FullscreenManager.classList back = FullscreenManager.classList w <->
   "fake-fullscreen" ∉ FullscreenManager.classList w) /\
  FullscreenManager.bodyPosition back = FullscreenManager.bodyPosition w /\
  FullscreenManager.calls back = FullscreenManager.calls w.
Proof.
  unfold FullscreenManager.exitFullscreen, FullscreenManager.enterFullscreen.
  rewrite Helement. simpl. rewrite Hdocument. simpl.
  set (classes := FullscreenManager.classList w).
  assert (Hadd : "fake-fullscreen" ∈
                 FullscreenManager.classList_add "fake-fullscreen" classes).
  { unfold FullscreenManager.classList_add.
    case_bool_decide as Hin; [exact Hin | apply elem_of_app; right; left]. }
  assert (Hback : FullscreenManager.classList_remove "fake-fullscreen"
                    (FullscreenManager.classList_add "fake-fullscreen" classes) =
                  FullscreenManager.classList_remove "fake-fullscreen" classes).
  { unfold FullscreenManager.classList_add, FullscreenManager.classList_remove.
    case_bool_decide; [reflexivity|].
    rewrite List.filter_app. simpl. apply app_nil_r. }
  split; [exact Hadd|]. split; [reflexivity|]. split; [reflexivity|].
  split; [exact Hback|]. split; [|auto].
  rewrite Hback. unfold FullscreenManager.classList_remove. split.
  - intros Heq Hin. rewrite <- Heq in Hin.
    apply filter_other_elem in Hin as [_ Hne]. congruence.
  - intros Hclean. apply filter_other_all. exact Hclean.
Qed.

Lemma fake_fullscreen_round_trip_witness :
  let w := FullscreenManager.constructor FullscreenManager.no_element_api
             FullscreenManager.no_document_api ["player"] "relative" in
  let marked := FullscreenManager.constructor FullscreenManager.no_element_api
             FullscreenManager.no_document_api ["fake-fullscreen"; "player"]
             "relative" in
  FullscreenManager.classList
    (FullscreenManager.exitFullscreen (FullscreenManager.enterFullscreen w)) =
    ["player"] /\
  FullscreenManager.bodyPosition
    (FullscreenManager.exitFullscreen (FullscreenManager.enterFullscreen w)) =
    "relative" /\
  FullscreenManager.classList
    (FullscreenManager.exitFullscreen (FullscreenManager.enterFullscreen marked)) =
    ["player"].
Proof.
  intros w marked.
  destruct (fake_fullscreen_round_trip w eq_refl eq_refl)
    as (_ & _ & _ & H1 & _ & H2 & _).
  destruct (fake_fullscreen_round_trip marked eq_refl eq_refl)
    as (_ & _ & _ & H3 & _).
  split; [exact H1|]. split; [exact H2 | exact H3].
Defined.

(** The faked fullscreen is not always undone.  Entered twice in a row, the
    second call saves the position [fixed] of the first, so leaving keeps the
    body fixed.  And when the element has no fullscreen method while the
    document has the standard [exitFullscreen], leaving calls that method
    and neither removes the class nor restores the body. *)
Theorem fake_fullscreen_not_undone (w : FullscreenManager.World)
    (Helement : FullscreenManager.element w = FullscreenManager.no_element_api) :
  (FullscreenManager.document w = FullscreenManager.no_document_api ->
   FullscreenManager.bodyPosition
     (FullscreenManager.exitFullscreen
        (FullscreenManager.enterFullscreen (FullscreenManager.enterFullscreen w))) =
   "fixed") /\
  (FullscreenManager.exitFullscreen_api (FullscreenManager.document w) = true ->
   let back := FullscreenManager.exitFullscreen (FullscreenManager.enterFullscreen w) in
   "fake-fullscreen" ∈ FullscreenManager.classList back /\
   FullscreenManager.bodyPosition back = "fixed" /\
   FullscreenManager.calls back =
     FullscreenManager.calls w ++ [FullscreenManager.CallExitFullscreen]).
Proof.
  unfold FullscreenManager.exitFullscreen, FullscreenManager.enterFullscreen.
  rewrite Helement. simpl. rewrite ?Helement. simpl. split.
  - intros ->. reflexivity.
  - intros ->. simpl. repeat split.
    unfold FullscreenManager.classList_add. case_bool_decide as Hin; [exact Hin|].
    apply elem_of_app. right. left.
Qed.

Lemma fake_fullscreen_not_undone_witness :
  let w := FullscreenManager.constructor FullscreenManager.no_element_api
             FullscreenManager.no_document_api ["player"] "relative" in
  FullscreenManager.bodyPosition
    (FullscreenManager.exitFullscreen
       (FullscreenManager.enterFullscreen (FullscreenManager.enterFullscreen w))) =
  "fixed".
Proof.
  intros w. exact (proj1 (fake_fullscreen_not_undone w eq_refl) eq_refl).
Defined.

Lemma Set_add_elem (x y : nat) (s : list nat) :
  y ∈ FullscreenManager.Set_add x s <-> y = x \/ y ∈ s.
Proof.
  unfold FullscreenManager.Set_add. case_bool_decide as Hin.
  - split; [auto|]. intros [->|H]; auto.
  - rewrite elem_of_app, list_elem_of_singleton. tauto.
Qed.

Lemma Set_add_NoDup (x : nat) (s : list nat) :
  NoDup s -> NoDup (FullscreenManager.Set_add x s).
Proof.
  intros Hs. unfold FullscreenManager.Set_add. case_bool_decide as Hin; [exact Hs|].
  apply NoDup_app. split; [exact Hs|]. split.
  - intros y Hy Hy'. apply list_elem_of_singleton in Hy'. congruence.
  - apply NoDup_singleton.
Qed.

Lemma Set_delete_NoDup (x : nat) (s : list nat) :
  NoDup s -> NoDup (FullscreenManager.Set_delete x s).
Proof.
  intros Hs. unfold FullscreenManager.Set_delete. induction Hs as [|y r Hy Hr IH]; simpl.
  - constructor.
  - case_bool_decide; [|exact IH]. constructor; [|exact IH].
    rewrite filter_other_elem. tauto.
Qed.

Lemma fullscreen_callback_loop (fullscreen : bool) (l : list nat)
    (w : FullscreenManager.World) :
  FullscreenManager.calls
    (foldl (fun w callback =>
              FullscreenManager.call (FullscreenManager.CallCallback callback fullscreen) w)
           w l) =
  FullscreenManager.calls w ++
  ((fun callback => FullscreenManager.CallCallback callback fullscreen) <$> l).
Proof.
  revert w. induction l as [|c r IH]; intros w; simpl.
  - now rewrite app_nil_r.
  - rewrite IH. simpl. now rewrite <- app_assoc.
Qed.

Lemma subscribe_all_snoc (l : list FullscreenManager.Subscription)
    (s : FullscreenManager.Subscription) (w : FullscreenManager.World) :
  FullscreenManager.subscribe_all (l ++ [s]) w =
  FullscreenManager.subscribe s (FullscreenManager.subscribe_all l w).
Proof. unfold FullscreenManager.subscribe_all. rewrite foldl_app. reflexivity. Qed.

Lemma subscribed_snoc (l : list FullscreenManager.Subscription)
    (s : FullscreenManager.Subscription) (callback : nat) :
  FullscreenManager.subscribed (l ++ [s]) callback =
  match s with
  | FullscreenManager.On c =>
      if decide (c = callback) then true else FullscreenManager.subscribed l callback
  | FullscreenManager.Off c =>
      if decide (c = callback) then false else FullscreenManager.subscribed l callback
  end.
Proof. unfold FullscreenManager.subscribed. rewrite foldl_app. reflexivity. Qed.

(** The callbacks of a fullscreen change form a set.  After any sequence of
    [onFullscreenChanged] and [offFullscreenChanged] calls on a new manager,
    a callback is in the set exactly when the last call that names it is an
    [onFullscreenChanged]; no callback is in it twice, however often it was
    registered; and a fullscreen change calls each callback of the set
    exactly once, with the new state. *)
Theorem fullscreen_callbacks_form_a_set
    (element : FullscreenManager.ElementApi)
    (document : FullscreenManager.DocumentApi)
    (classes : list string) (position : string)
    (subscriptions : list FullscreenManager.Subscription) (fullscreen : bool) :
  let w := FullscreenManager.subscribe_all subscriptions
             (FullscreenManager.constructor element document classes position) in
  let registered := FullscreenManager.fullscreenChangedCallbacks w in
  NoDup registered /\
  (forall callback,
      callback ∈ registered <->
      FullscreenManager.subscribed subscriptions callback = true) /\
  FullscreenManager.calls (FullscreenManager._fullScreenChanged fullscreen w) =
    (fun callback => FullscreenManager.CallCallback callback fullscreen) <$> registered.
Proof.
  intros w registered. subst registered w.
  set (w0 := FullscreenManager.constructor element document classes position).
  assert (Hinv :
    NoDup (FullscreenManager.fullscreenChangedCallbacks
             (FullscreenManager.subscribe_all subscriptions w0)) /\
    (forall callback,
        callback ∈ FullscreenManager.fullscreenChangedCallbacks
                     (FullscreenManager.subscribe_all subscriptions w0) <->
        FullscreenManager.subscribed subscriptions callback = true) /\
    FullscreenManager.calls (FullscreenManager.subscribe_all subscriptions w0) = []).
  { induction subscriptions as [|s l IH] using rev_ind.
    - simpl. split; [constructor|]. split; [|reflexivity].
      intros c. split; [intros H; inversion H | discriminate].
    - rewrite subscribe_all_snoc.
      destruct IH as (Hnd & Hmem & Hcalls).
      destruct s as [c|c]; simpl.
      + split; [apply Set_add_NoDup; exact Hnd|]. split; [|exact Hcalls].
        intros c'. rewrite Set_add_elem, Hmem, subscribed_snoc.
        destruct (decide (c = c')) as [->|Hne].
        * split; auto.
        * split; [intros [Heq|H]; [congruence | exact H] | auto].
      + split; [apply Set_delete_NoDup; exact Hnd|]. split; [|exact Hcalls].
        intros c'. unfold FullscreenManager.Set_delete.
        rewrite filter_other_elem, Hmem, subscribed_snoc.
        destruct (decide (c = c')) as [->|Hne].
        * split; [intros [_ Hne]; congruence | discriminate].
        * split; [tauto | auto]. }
  destruct Hinv as (Hnd & Hmem & Hcalls).
  split; [exact Hnd|]. split; [exact Hmem|].
  unfold FullscreenManager._fullScreenChanged.
  rewrite fullscreen_callback_loop, Hcalls. reflexivity.
Qed.

(** * The configuration validator *)

Module ValidatorFacts.
Import ConfigurationValidator.

(** ** Runs *)

Lemma bind_ret_l {A B} (a : A) (f : A -> Run B) : bind (ret a) f = f a.
Proof. unfold bind, ret. simpl. destruct (f a). reflexivity. Qed.


Lemma sound_ret (isValid : bool) : sound isValid (ret isValid).
Proof. unfold sound, ret. simpl. destruct isValid; auto. Qed.

Lemma sound_bind (isValid : bool) (m : Run bool) (f : bool -> Run bool) :
  sound isValid m -> (forall v, sound v (f v)) -> sound isValid (bind m f).
Proof.
  unfold sound, bind. intros Hm Hf.
  destruct (snd m) as [v| |] eqn:Em; simpl; [|exact I|exact I].
  specialize (Hf v). destruct (snd (f v)) as [[|]| |]; try exact I.
  - destruct Hf as [-> Hl]. destruct Hm as [-> Hl']. rewrite Hl, Hl'. auto.
  - destruct Hf as [->|Hl].
    + destruct Hm as [->|Hl']; [auto|]. right.
      intros H. apply app_eq_nil in H as [H _]. contradiction.
    + right. intros H. apply app_eq_nil in H as [_ H]. contradiction.
Qed.

Lemma sound_fold {X} (g : Run bool -> X -> Run bool) (l : list X)
    (isValid : bool) (acc : Run bool) :
  (forall x a, x ∈ l -> sound isValid a -> sound isValid (g a x)) ->
  sound isValid acc ->
  sound isValid (foldl g acc l).
Proof.
  revert acc. induction l as [|x r IH]; intros acc Hstep Hacc; simpl; [exact Hacc|].
  apply IH; [intros; apply Hstep; [now right | assumption]|].
  apply Hstep; [left | exact Hacc].
Qed.

(** The answer of a nested validation joins the validity so far. *)
Lemma sound_nested (r : Run bool) :
  sound true r -> forall v, sound v (bind r (fun ok => ret (ok && v))).
Proof.
  unfold sound, bind, ret. intros Hr v.
  destruct (snd r) as [[|]| |]; simpl; try exact I.
  - destruct Hr as [_ ->]. destruct v; simpl; auto.
  - destruct Hr as [Hr|Hr]; [discriminate|]. right.
    intros H. apply app_eq_nil in H as [H _]. contradiction.
Qed.

(** After a failed check: a message and the answer [false]. *)
Lemma sound_complaint (isValid : bool) (m : Run unit) :
  (exists msg, m = ([msg], Returned tt)) ->
  sound isValid (bind m (fun _ => ret false)).
Proof. intros [msg ->]. unfold sound. simpl. right. discriminate. Qed.


(** ** One option *)

Lemma check_option_sound (ToNumber : JsValue -> option Q)
    (validateSubSchema : JsValue -> list (string * Descriptor) -> option string -> Run bool)
    (schema : list (string * Descriptor)) (nodePath : option string)
    (isValid : bool) (key : string) (value : JsValue) :
  (forall v sub p, sound true (validateSubSchema v sub p)) ->
  sound isValid
    (check_option ToNumber validateSubSchema schema nodePath isValid key value).
Proof.
  intros Hrec. unfold check_option.
  destruct (is_nullish value); [apply sound_ret|].
  destruct (negb (includes _ key)); [apply sound_complaint; eexists; reflexivity|].
  destruct (schema_get schema key) as [descriptor|]; [|exact I].
  destruct (type_differs _ _); [apply sound_complaint; eexists; reflexivity|].
  cbv zeta.
  destruct (match options descriptor with Some _ => _ | None => _ end);
    [apply sound_complaint; eexists; reflexivity|].
  destruct (below _ _ _); [apply sound_complaint; eexists; reflexivity|].
  destruct (above _ _ _); [apply sound_complaint; eexists; reflexivity|].
  destruct (match pattern descriptor with Some _ => _ | None => _ end);
    [apply sound_complaint; eexists; reflexivity|].
  destruct (ConfigurationValidator.schema descriptor) as [subSchema|];
    [|apply sound_ret].
  destruct (bool_decide (type descriptor = Some "object"));
    [apply sound_nested, Hrec|].
  destruct (bool_decide (type descriptor = Some "array")); [|apply sound_ret].
  destruct value; try apply sound_ret.
  apply sound_fold; [|apply sound_ret].
  intros [i element] a _ Ha. apply sound_bind; [exact Ha|].
  intros v. apply sound_nested, Hrec.
Qed.

Lemma checkForMissingOptions_sound (ToNumber : JsValue -> option Q)
    (configuration : JsValue) (schema : list (string * Descriptor))
    (nodePath : option string) :
  sound true (_checkForMissingOptions configuration schema nodePath).
Proof.
  unfold _checkForMissingOptions.
  destruct (Object_keys configuration); [|exact I].
  destruct (_ =? _)%nat; [apply sound_ret|].
  apply sound_complaint. eexists; reflexivity.
Qed.

Lemma validatePresentOptions_sound (ToNumber : JsValue -> option Q)
    (validateSubSchema : JsValue -> list (string * Descriptor) -> option string -> Run bool)
    (configuration : JsValue) (schema : list (string * Descriptor))
    (nodePath : option string) :
  (forall v sub p, sound true (validateSubSchema v sub p)) ->
  sound true (_validatePresentOptions ToNumber validateSubSchema
                configuration schema nodePath).
Proof.
  intros Hrec. unfold _validatePresentOptions.
  destruct (Object_entries configuration) as [entries|]; [|exact I].
  apply sound_fold; [|apply sound_ret].
  intros [key value] a _ Ha. apply sound_bind; [exact Ha|].
  intros v. apply check_option_sound, Hrec.
Qed.

Lemma validateSubSchema_sound (ToNumber : JsValue -> option Q) (budget : nat) :
  forall configuration schema nodePath,
    sound true (_validateSubSchema ToNumber budget configuration schema nodePath).
Proof.
  induction budget as [|budget IH]; intros configuration schema nodePath; simpl;
    [exact I|].
  apply sound_bind; [apply (checkForMissingOptions_sound ToNumber)|].
  intros [|]; [|unfold sound; simpl; auto].
  apply validatePresentOptions_sound, IH.
Qed.

(** ** The budget is enough *)

Lemma within_budget_bind {A B} (m : Run A) (f : A -> Run B) :
  within_budget m -> (forall a, within_budget (f a)) -> within_budget (bind m f).
Proof.
  unfold within_budget, bind. intros Hm Hf.
  destruct (snd m) as [a| |]; simpl; [apply Hf | discriminate | contradiction].
Qed.

Lemma within_budget_fold {A X} (g : Run A -> X -> Run A) (l : list X) (acc : Run A) :
  (forall x a, x ∈ l -> within_budget a -> within_budget (g a x)) ->
  within_budget acc -> within_budget (foldl g acc l).
Proof.
  revert acc. induction l as [|x r IH]; intros acc Hstep Hacc; simpl; [exact Hacc|].
  apply IH; [intros; apply Hstep; [now right | assumption]|].
  apply Hstep; [left | exact Hacc].
Qed.

Lemma descriptor_depth_nested (d : Descriptor) :
  descriptor_depth d =
  match ConfigurationValidator.schema d with
  | None => 0%nat
  | Some entries => schema_depth entries
  end.
Proof.
  destruct d as [? ? ? ? ? ? [entries|]]; simpl; [|reflexivity].
  unfold schema_depth. f_equal.
  induction entries as [|[k d'] rest IH]; simpl; [reflexivity|].
  rewrite IH. reflexivity.
Qed.

Lemma schema_get_elem (schema : list (string * Descriptor)) (key : string)
    (d : Descriptor) :
  schema_get schema key = Some d -> (key, d) ∈ schema.
Proof.
  unfold schema_get. intros H.
  destruct (List.find _ schema) as [[k d']|] eqn:E; [|discriminate].
  simpl in H. injection H as ->.
  apply find_some in E as [Hin Hk]. apply bool_decide_eq_true in Hk.
  simpl in Hk. subst k. apply list_elem_of_In. exact Hin.
Qed.

Lemma schema_get_depth (schema sub : list (string * Descriptor)) (key : string)
    (d : Descriptor) :
  schema_get schema key = Some d ->
  ConfigurationValidator.schema d = Some sub ->
  (schema_depth sub < schema_depth schema)%nat.
Proof.
  intros Hget Hsub. apply schema_get_elem in Hget.
  assert (Hd : descriptor_depth d = schema_depth sub)
    by (rewrite descriptor_depth_nested, Hsub; reflexivity).
  rewrite <- Hd. unfold schema_depth at 1. apply Nat.lt_succ_r.
  induction schema as [|[k d'] rest IH]; [inversion Hget|].
  simpl. apply elem_of_cons in Hget as [[= -> ->]|Hin]; [lia|].
  specialize (IH Hin). lia.
Qed.

Lemma check_option_within_budget (ToNumber : JsValue -> option Q)
    (validateSubSchema : JsValue -> list (string * Descriptor) -> option string -> Run bool)
    (schema : list (string * Descriptor)) (nodePath : option string)
    (isValid : bool) (key : string) (value : JsValue) :
  (forall v sub p, (schema_depth sub < schema_depth schema)%nat ->
                   within_budget (validateSubSchema v sub p)) ->
  within_budget (check_option ToNumber validateSubSchema schema nodePath isValid key value).
Proof.
  intros Hrec. unfold check_option.
  destruct (is_nullish value); [discriminate|].
  destruct (negb (includes _ key)); [discriminate|].
  destruct (schema_get schema key) as [descriptor|] eqn:Hget; [|discriminate].
  destruct (type_differs _ _); [discriminate|].
  cbv zeta.
  destruct (match options descriptor with Some _ => _ | None => _ end);
    [discriminate|].
  destruct (below _ _ _); [discriminate|].
  destruct (above _ _ _); [discriminate|].
  destruct (match pattern descriptor with Some _ => _ | None => _ end);
    [discriminate|].
  destruct (ConfigurationValidator.schema descriptor) as [subSchema|] eqn:Hsub;
    [|discriminate].
  pose proof (schema_get_depth _ _ _ _ Hget Hsub) as Hdepth.
  destruct (bool_decide (type descriptor = Some "object")).
  { apply within_budget_bind; [apply Hrec; exact Hdepth | discriminate]. }
  destruct (bool_decide (type descriptor = Some "array")); [|discriminate].
  destruct value; try discriminate.
  apply within_budget_fold; [|discriminate].
  intros [i element] a _ Ha. apply within_budget_bind; [exact Ha|].
  intros v. apply within_budget_bind; [apply Hrec; exact Hdepth | discriminate].
Qed.

Lemma validateSubSchema_within_budget (ToNumber : JsValue -> option Q) (budget : nat) :
  forall configuration schema nodePath,
    (schema_depth schema <= budget)%nat ->
    within_budget (_validateSubSchema ToNumber budget configuration schema nodePath).
Proof.
  induction budget as [|budget IH]; intros configuration schema nodePath Hdepth.
  { unfold schema_depth in Hdepth. lia. }
  simpl. apply within_budget_bind.
  { unfold _checkForMissingOptions.
    destruct (Object_keys configuration); [|discriminate].
    destruct (_ =? _)%nat; discriminate. }
  intros [|]; [|discriminate].
  unfold _validatePresentOptions.
  destruct (Object_entries configuration) as [entries|]; [|discriminate].
  apply within_budget_fold; [|discriminate].
  intros [key value] a _ Ha. apply within_budget_bind; [exact Ha|].
  intros v. apply check_option_within_budget.
  intros v' sub p Hsub. apply IH. lia.
Qed.

(** ** The budget does not matter once it is enough *)

Lemma bind_ext {A B} (m : Run A) (f g : A -> Run B) :
  (forall a, f a = g a) -> bind m f = bind m g.
Proof. intros H. unfold bind. destruct (snd m); [rewrite H|..]; reflexivity. Qed.

Lemma foldl_ext_elem {A X} (g h : A -> X -> A) (l : list X) (acc : A) :
  (forall a x, x ∈ l -> g a x = h a x) -> foldl g acc l = foldl h acc l.
Proof.
  revert acc. induction l as [|x r IH]; intros acc H; simpl; [reflexivity|].
  rewrite (H acc x) by left. apply IH. intros; apply H; now right.
Qed.

Lemma check_option_ext (ToNumber : JsValue -> option Q)
    (rec1 rec2 : JsValue -> list (string * Descriptor) -> option string -> Run bool)
    (schema : list (string * Descriptor)) (nodePath : option string)
    (isValid : bool) (key : string) (value : JsValue) :
  (forall v sub p, (schema_depth sub < schema_depth schema)%nat ->
                   rec1 v sub p = rec2 v sub p) ->
  check_option ToNumber rec1 schema nodePath isValid key value =
  check_option ToNumber rec2 schema nodePath isValid key value.
Proof.
  intros Hrec. unfold check_option.
  destruct (is_nullish value); [reflexivity|].
  destruct (negb (includes _ key)); [reflexivity|].
  destruct (schema_get schema key) as [descriptor|] eqn:Hget; [|reflexivity].
  destruct (type_differs _ _); [reflexivity|].
  cbv zeta.
  destruct (match options descriptor with Some _ => _ | None => _ end);
    [reflexivity|].
  destruct (below _ _ _); [reflexivity|].
  destruct (above _ _ _); [reflexivity|].
  destruct (match pattern descriptor with Some _ => _ | None => _ end);
    [reflexivity|].
  destruct (ConfigurationValidator.schema descriptor) as [subSchema|] eqn:Hsub;
    [|reflexivity].
  pose proof (schema_get_depth _ _ _ _ Hget Hsub) as Hdepth.
  destruct (bool_decide (type descriptor = Some "object")).
  { rewrite (Hrec _ _ _ Hdepth). reflexivity. }
  destruct (bool_decide (type descriptor = Some "array")); [|reflexivity].
  destruct value; try reflexivity.
  apply foldl_ext_elem. intros a [i element] _.
  apply bind_ext. intros v. rewrite (Hrec _ _ _ Hdepth). reflexivity.
Qed.

Lemma validateSubSchema_budget (ToNumber : JsValue -> option Q) (budget : nat) :
  forall configuration schema nodePath,
    (schema_depth schema <= budget)%nat ->
    _validateSubSchema ToNumber budget configuration schema nodePath =
    _validateSubSchema ToNumber (schema_depth schema) configuration schema nodePath.
Proof.
  induction budget as [budget IH] using lt_wf_ind.
  intros configuration schema nodePath Hdepth.
  destruct budget as [|budget]; [unfold schema_depth in Hdepth; lia|].
  destruct (schema_depth schema) as [|depth] eqn:Edepth;
    [unfold schema_depth in Edepth; discriminate|].
  simpl. apply bind_ext. intros [|]; [|reflexivity].
  unfold _validatePresentOptions.
  destruct (Object_entries configuration) as [entries|]; [|reflexivity].
  apply foldl_ext_elem. intros a [key value] _.
  apply bind_ext. intros v. apply check_option_ext.
  intros v' sub p Hsub. rewrite Edepth in Hsub.
  rewrite (IH budget) by lia. rewrite (IH depth) by lia. reflexivity.
Qed.

(** ** Ending with a [TypeError] *)

Lemma thrown_bind {A B} (m : Run A) (f : A -> Run B) :
  snd m = TypeError -> snd (bind m f) = TypeError.
Proof. unfold bind. intros ->. reflexivity. Qed.

Lemma thrown_fold {A X} (g : Run A -> X -> Run A) (l : list X) (acc : Run A) :
  (forall a x, snd a = TypeError -> snd (g a x) = TypeError) ->
  snd acc = TypeError -> snd (foldl g acc l) = TypeError.
Proof.
  revert acc. induction l as [|x r IH]; intros acc Hg Hacc; simpl; [exact Hacc|].
  apply IH; [exact Hg|]. apply Hg, Hacc.
Qed.

Lemma schema_get_includes (schema : list (string * Descriptor)) (key : string)
    (d : Descriptor) :
  schema_get schema key = Some d -> includes (schema.*1) key = true.
Proof.
  intros H. apply schema_get_elem in H. unfold includes.
  apply bool_decide_eq_true. apply list_elem_of_fmap. exists (key, d). auto.
Qed.

Lemma bind_ret_r {A} (m : Run A) : bind m ret = m.
Proof.
  unfold bind, ret. destruct m as [l [a| |]]; simpl; [|reflexivity|reflexivity].
  rewrite app_nil_r. reflexivity.
Qed.

Lemma getPropertyPath_top (keys : list string) :
  _getPropertyPath None <$> keys = keys.
Proof.
  induction keys as [|k r IH]; [reflexivity|].
  rewrite fmap_cons. simpl. f_equal. exact IH.
Qed.


Lemma fold_throws {A X} (g : Run A -> X -> Run A) (before after : list X)
    (x : X) (acc : Run A) :
  within_budget (foldl g acc before) ->
  (forall a, within_budget a -> snd (g a x) = TypeError) ->
  (forall a y, snd a = TypeError -> snd (g a y) = TypeError) ->
  snd (foldl g acc (before ++ x :: after)) = TypeError.
Proof.
  intros Hbefore Hx Hg. rewrite foldl_app. simpl.
  apply thrown_fold; [exact Hg|]. apply Hx, Hbefore.
Qed.


Lemma checkForMissingOptions_none (ToNumber : JsValue -> option Q)
    (configuration : JsValue) (schema : list (string * Descriptor))
    (nodePath : option string) (keys : list string) :
  Object_keys configuration = Some keys ->
  missing_options schema keys = [] ->
  _checkForMissingOptions configuration schema nodePath = ret true.
Proof.
  intros Hkeys Hnone. unfold _checkForMissingOptions. rewrite Hkeys.
  fold (missing_options schema keys). rewrite Hnone. reflexivity.
Qed.

End ValidatorFacts.

(** [validate] answers [true] exactly when it has logged nothing, and
    [false] only together with at least one message: no configuration is
    rejected silently and none is accepted with a complaint.  The only other
    way for it to end is an uncaught [TypeError]; the depth budget of the
    recursion is never used up. *)
Theorem validate_true_iff_silent
    (ToNumber : ConfigurationValidator.JsValue -> option Q)
    (schema : list (string * ConfigurationValidator.Descriptor))
    (configuration : ConfigurationValidator.JsValue) :
  match snd (ConfigurationValidator.validate ToNumber schema configuration) with
  | ConfigurationValidator.Returned true =>
      fst (ConfigurationValidator.validate ToNumber schema configuration) = []
  | ConfigurationValidator.Returned false =>
      fst (ConfigurationValidator.validate ToNumber schema configuration) <> []
  | ConfigurationValidator.TypeError => True
  | ConfigurationValidator.OutOfBudget => False
  end.
Proof.
  pose proof (ValidatorFacts.validateSubSchema_sound ToNumber
                (ConfigurationValidator.schema_depth schema)
                configuration schema None) as Hsound.
  pose proof (ValidatorFacts.validateSubSchema_within_budget ToNumber
                (ConfigurationValidator.schema_depth schema)
                configuration schema None (le_n _)) as Hbudget.
  unfold ConfigurationValidator.validate, sound, within_budget in *.
  destruct (snd _) as [[|]| |]; try exact I.
  - exact (proj2 Hsound).
  - destruct Hsound as [H|H]; [discriminate | exact H].
  - contradiction.
Qed.

(** [validate] on a schema of which a required option is missing: the one
    message lists every missing required option, in the order of the schema,
    the answer is [false], and no present option is looked at, so nothing
    else is reported. *)
Theorem validate_reports_missing_options
    (ToNumber : ConfigurationValidator.JsValue -> option Q)
    (schema : list (string * ConfigurationValidator.Descriptor))
    (configuration : ConfigurationValidator.JsValue)
    (keys : list string) (key : string) (d : ConfigurationValidator.Descriptor)
    (Hkeys : ConfigurationValidator.Object_keys configuration = Some keys)
    (Hschema : (key, d) ∈ schema)
    (Hrequired : ConfigurationValidator.required d = true)
    (Hmissing : key ∉ keys) :
  ConfigurationValidator.validate ToNumber schema configuration =
    ([ConfigurationValidator.ConsoleError
        (ConfigurationValidator.MissingOptions (missing_options schema keys))],
     ConfigurationValidator.Returned false) /\
  key ∈ missing_options schema keys.
Proof.
  assert (Hin : key ∈ missing_options schema keys).
  { unfold missing_options. apply elem_of_List_filter. split.
    - apply list_elem_of_fmap. exists (key, d). split; [reflexivity|].
      apply elem_of_List_filter. auto.
    - unfold ConfigurationValidator.includes.
      rewrite bool_decide_eq_false_2 by exact Hmissing. reflexivity. }
  split; [|exact Hin].
  unfold ConfigurationValidator.validate.
  destruct (ConfigurationValidator.schema_depth schema) as [|n] eqn:E;
    [discriminate|].
  simpl. unfold ConfigurationValidator._checkForMissingOptions.
  rewrite Hkeys. fold (missing_options schema keys).
  destruct (missing_options schema keys) as [|k r] eqn:Em;
    [inversion Hin|].
  simpl length. simpl Nat.eqb. cbv iota.
  rewrite ValidatorFacts.getPropertyPath_top. reflexivity.
Qed.

Lemma validate_reports_missing_options_witness :
  let schema := [("width", number_between 1 10); ("streams", array_of [])] in
  let required_width :=
    ConfigurationValidator.mkDescriptor true (Some "number") None None None None None in
  ConfigurationValidator.validate no_number (("title", required_width) :: schema)
    (ConfigurationValidator.JObj [("width", ConfigurationValidator.JStr "wide")]) =
  ([ConfigurationValidator.ConsoleError
      (ConfigurationValidator.MissingOptions ["title"])],
   ConfigurationValidator.Returned false).
Proof.
  intros schema required_width.
  assert (Hout : "title" ∉ ["width"]).
  { intros H. apply list_elem_of_singleton in H. discriminate. }
  exact (proj1 (validate_reports_missing_options no_number
           (("title", required_width) :: schema)
           (ConfigurationValidator.JObj [("width", ConfigurationValidator.JStr "wide")])
           ["width"] "title" required_width eq_refl
           ltac:(left) eq_refl Hout)).
Defined.

(** An option given as [null] or [undefined] counts as present and is not
    checked any further: an object whose options are all [null] or
    [undefined] and name every required option is valid, silently, whatever
    the schema says about types and whatever unknown options it holds. *)
Theorem validate_accepts_nulls
    (ToNumber : ConfigurationValidator.JsValue -> option Q)
    (schema : list (string * ConfigurationValidator.Descriptor))
    (properties : list (string * ConfigurationValidator.JsValue))
    (Hnull : forall key value, (key, value) ∈ properties ->
                               ConfigurationValidator.is_nullish value = true)
    (Hpresent : forall key d, (key, d) ∈ schema ->
                              ConfigurationValidator.required d = true ->
                              key ∈ properties.*1) :
  ConfigurationValidator.validate ToNumber schema
    (ConfigurationValidator.JObj properties) =
  ([], ConfigurationValidator.Returned true).
Proof.
  assert (Hfold : forall rec nodePath acc,
            foldl (fun (acc : ConfigurationValidator.Run bool) '(key, value) =>
                     ConfigurationValidator.bind acc (fun isValid =>
                       ConfigurationValidator.check_option ToNumber rec schema
                         nodePath isValid key value))
                  acc properties = acc).
  { clear Hpresent. intros rec nodePath.
    induction properties as [|[key value] rest IH]; intros acc; simpl;
      [reflexivity|].
    rewrite (ValidatorFacts.bind_ext acc _ ConfigurationValidator.ret).
    - rewrite ValidatorFacts.bind_ret_r. apply IH.
      intros k v Hin. apply (Hnull k v). now right.
    - intros isValid. unfold ConfigurationValidator.check_option.
      rewrite (Hnull key value) by left. reflexivity. }
  unfold ConfigurationValidator.validate.
  destruct (ConfigurationValidator.schema_depth schema) as [|n] eqn:E;
    [discriminate|].
  simpl. unfold ConfigurationValidator._checkForMissingOptions. simpl.
  rewrite filter_none.
  2:{ intros key Hkey. apply list_elem_of_fmap in Hkey as ([k d] & -> & Hkd).
      apply elem_of_List_filter in Hkd as [Hkd Hreq]. simpl in *.
      unfold ConfigurationValidator.includes.
      rewrite bool_decide_eq_true_2 by exact (Hpresent k d Hkd Hreq). reflexivity. }
  simpl. rewrite ValidatorFacts.bind_ret_l.
  unfold ConfigurationValidator._validatePresentOptions. simpl.
  apply Hfold.
Qed.

Lemma validate_accepts_nulls_witness :
  ConfigurationValidator.validate no_number
    [("width", ConfigurationValidator.mkDescriptor true (Some "number")
                 None None None None None)]
    (ConfigurationValidator.JObj
       [("width", ConfigurationValidator.JNull);
        ("colour", ConfigurationValidator.JUndefined)]) =
  ([], ConfigurationValidator.Returned true).
Proof.
  apply validate_accepts_nulls.
  - intros key value Hin.
    apply elem_of_cons in Hin as [[= -> ->]|Hin]; [reflexivity|].
    apply list_elem_of_singleton in Hin. injection Hin as -> ->. reflexivity.
  - intros key d Hin _. apply list_elem_of_singleton in Hin.
    injection Hin as -> ->. left.
Defined.

(** An option that the schema does not know and that is not [null] or
    [undefined] makes the configuration invalid, although its warning calls
    it ignored: [validate] never answers [true] for such a configuration. *)
Theorem validate_rejects_unknown_options
    (ToNumber : ConfigurationValidator.JsValue -> option Q)
    (schema : list (string * ConfigurationValidator.Descriptor))
    (properties : list (string * ConfigurationValidator.JsValue))
    (key : string) (value : ConfigurationValidator.JsValue)
    (Hgiven : (key, value) ∈ properties)
    (Hvalue : ConfigurationValidator.is_nullish value = false)
    (Hunknown : key ∉ schema.*1) :
  snd (ConfigurationValidator.validate ToNumber schema
         (ConfigurationValidator.JObj properties)) <>
  ConfigurationValidator.Returned true.
Proof.
  unfold ConfigurationValidator.validate.
  destruct (ConfigurationValidator.schema_depth schema) as [|n] eqn:E;
    [discriminate|].
  simpl.
  set (check := ConfigurationValidator._checkForMissingOptions _ _ _).
  assert (Hcheck : check = ConfigurationValidator.ret true \/
                   snd check = ConfigurationValidator.Returned false).
  { subst check. unfold ConfigurationValidator._checkForMissingOptions. simpl.
    destruct (_ =? _)%nat; [left | right]; reflexivity. }
  clearbody check. destruct Hcheck as [->|Hfalse].
  2:{ unfold ConfigurationValidator.bind. rewrite Hfalse. simpl. discriminate. }
  rewrite ValidatorFacts.bind_ret_l.
  unfold ConfigurationValidator._validatePresentOptions. simpl.
  apply list_elem_of_split in Hgiven as (before & after & ->).
  rewrite foldl_app. simpl.
  set (reached := foldl _ (ConfigurationValidator.ret true) before).
  assert (Hsound : sound false
            (foldl (fun (acc : ConfigurationValidator.Run bool) '(key, value) =>
                      ConfigurationValidator.bind acc (fun isValid =>
                        ConfigurationValidator.check_option ToNumber
                          (ConfigurationValidator._validateSubSchema ToNumber n)
                          schema None isValid key value))
               (ConfigurationValidator.bind reached (fun isValid =>
                  ConfigurationValidator.check_option ToNumber
                    (ConfigurationValidator._validateSubSchema ToNumber n)
                    schema None isValid key value))
               after)).
  { apply ValidatorFacts.sound_fold.
    - intros [k v] a _ Ha. apply ValidatorFacts.sound_bind; [exact Ha|].
      intros isValid. apply ValidatorFacts.check_option_sound.
      intros; apply ValidatorFacts.validateSubSchema_sound.
    - clearbody reached. unfold sound, ConfigurationValidator.bind.
      destruct (snd reached) as [isValid| |]; simpl; try exact I.
      unfold ConfigurationValidator.check_option. rewrite Hvalue.
      unfold ConfigurationValidator.includes.
      rewrite bool_decide_eq_false_2 by exact Hunknown. simpl. auto. }
  unfold sound in Hsound. intros Htrue. rewrite Htrue in Hsound.
  destruct Hsound as [? _]. discriminate.
Qed.

Lemma validate_rejects_unknown_options_witness :
  let properties := [("width", ConfigurationValidator.JNum 4);
                     ("colour", ConfigurationValidator.JStr "red")] in
  snd (ConfigurationValidator.validate no_number
         [("width", number_between 1 10)]
         (ConfigurationValidator.JObj properties)) <>
  ConfigurationValidator.Returned true.
Proof.
  intros properties.
  apply (validate_rejects_unknown_options no_number
           [("width", number_between 1 10)] properties
           "colour" (ConfigurationValidator.JStr "red")).
  - right. left.
  - reflexivity.
  - intros H. apply list_elem_of_singleton in H. discriminate.
Defined.

Lemma below_drop_zero (ToNumber : ConfigurationValidator.JsValue -> option Q)
    (bound : option Q) (value : ConfigurationValidator.JsValue) :
  ConfigurationValidator.below ToNumber (drop_zero bound) value =
  ConfigurationValidator.below ToNumber bound value.
Proof.
  unfold ConfigurationValidator.below, drop_zero.
  destruct bound as [b|]; [|reflexivity].
  destruct (Qeq_bool b 0) eqn:E; [reflexivity|]. rewrite E. reflexivity.
Qed.

Lemma above_drop_zero (ToNumber : ConfigurationValidator.JsValue -> option Q)
    (bound : option Q) (value : ConfigurationValidator.JsValue) :
  ConfigurationValidator.above ToNumber (drop_zero bound) value =
  ConfigurationValidator.above ToNumber bound value.
Proof.
  unfold ConfigurationValidator.above, drop_zero.
  destruct bound as [b|]; [|reflexivity].
  destruct (Qeq_bool b 0) eqn:E; [reflexivity|]. rewrite E. reflexivity.
Qed.

Lemma without_zero_bounds_keys
    (schema : list (string * ConfigurationValidator.Descriptor)) :
  (prod_map id without_zero_bounds <$> schema).*1 = schema.*1.
Proof.
  induction schema as [|[k d] rest IH]; [reflexivity|].
  rewrite !fmap_cons. simpl. f_equal. exact IH.
Qed.

Lemma without_zero_bounds_required
    (schema : list (string * ConfigurationValidator.Descriptor)) :
  (List.filter (fun entry => ConfigurationValidator.required (snd entry))
     (prod_map id without_zero_bounds <$> schema)).*1 =
  (List.filter (fun entry => ConfigurationValidator.required (snd entry)) schema).*1.
Proof.
  induction schema as [|[k d] rest IH]; [reflexivity|].
  rewrite fmap_cons. simpl.
  destruct (ConfigurationValidator.required d); [rewrite !fmap_cons; simpl; f_equal|];
    exact IH.
Qed.

Lemma without_zero_bounds_get
    (schema : list (string * ConfigurationValidator.Descriptor)) (key : string) :
  ConfigurationValidator.schema_get (prod_map id without_zero_bounds <$> schema) key =
  without_zero_bounds <$> ConfigurationValidator.schema_get schema key.
Proof.
  unfold ConfigurationValidator.schema_get.
  induction schema as [|[k d] rest IH]; [reflexivity|].
  rewrite fmap_cons. simpl. destruct (bool_decide (k = key)); [reflexivity | exact IH].
Qed.

Lemma without_zero_bounds_depth
    (schema : list (string * ConfigurationValidator.Descriptor)) :
  ConfigurationValidator.schema_depth (prod_map id without_zero_bounds <$> schema) =
  ConfigurationValidator.schema_depth schema.
Proof.
  unfold ConfigurationValidator.schema_depth. f_equal.
  induction schema as [|[k d] rest IH]; [reflexivity|].
  rewrite fmap_cons. cbn [foldr]. rewrite IH. f_equal.
  destruct d; reflexivity.
Qed.

(** A bound of 0 is not a bound: [min] and [max] are tested for truthiness
    before they are compared, so a schema whose options carry bounds of 0
    validates every configuration exactly like the schema without these
    bounds, with the same messages.  A number option with [min: 0] accepts
    negative numbers. *)
Theorem zero_bounds_are_not_enforced
    (ToNumber : ConfigurationValidator.JsValue -> option Q)
    (schema : list (string * ConfigurationValidator.Descriptor))
    (configuration : ConfigurationValidator.JsValue) :
  ConfigurationValidator.validate ToNumber schema configuration =
  ConfigurationValidator.validate ToNumber
    (prod_map id without_zero_bounds <$> schema) configuration.
Proof.
  unfold ConfigurationValidator.validate. rewrite without_zero_bounds_depth.
  destruct (ConfigurationValidator.schema_depth schema) as [|n]; [reflexivity|].
  simpl.
  assert (Hcheck :
    ConfigurationValidator._checkForMissingOptions configuration
      (prod_map id without_zero_bounds <$> schema) None =
    ConfigurationValidator._checkForMissingOptions configuration schema None).
  { unfold ConfigurationValidator._checkForMissingOptions.
    rewrite without_zero_bounds_required. reflexivity. }
  rewrite Hcheck. apply ValidatorFacts.bind_ext. intros [|]; [|reflexivity].
  unfold ConfigurationValidator._validatePresentOptions.
  destruct (ConfigurationValidator.Object_entries configuration) as [entries|];
    [|reflexivity].
  apply ValidatorFacts.foldl_ext_elem. intros a [key value] _.
  apply ValidatorFacts.bind_ext. intros isValid.
  unfold ConfigurationValidator.check_option.
  rewrite without_zero_bounds_keys, without_zero_bounds_get.
  destruct (ConfigurationValidator.is_nullish value); [reflexivity|].
  destruct (negb _); [reflexivity|].
  destruct (ConfigurationValidator.schema_get schema key) as [d|]; [|reflexivity].
  simpl. rewrite below_drop_zero, above_drop_zero. reflexivity.
Qed.

(** A width that must be at least 0 and at most 10: -5 passes, 11 does not. *)
Example negative_number_passes_min_zero :
  let schema := [("width", number_between 0 10)] in
  ConfigurationValidator.validate no_number schema
    (ConfigurationValidator.JObj [("width", ConfigurationValidator.JNum (-5))]) =
    ([], ConfigurationValidator.Returned true) /\
  ConfigurationValidator.validate no_number schema
    (ConfigurationValidator.JObj [("width", ConfigurationValidator.JNum 11)]) =
    ([ConfigurationValidator.ConsoleError
        (ConfigurationValidator.AboveMax "width" 10)],
     ConfigurationValidator.Returned false).
Proof. split; reflexivity. Qed.

(** [validate] raises a [TypeError] instead of answering when it is given
    [null] or [undefined], and when an array option that is validated
    element by element holds a [null] or [undefined] element: the elements
    are handed to [Object.keys] unchecked. *)
Theorem validate_raises_on_null
    (ToNumber : ConfigurationValidator.JsValue -> option Q)
    (schema : list (string * ConfigurationValidator.Descriptor)) :
  ConfigurationValidator.validate ToNumber schema ConfigurationValidator.JNull =
    ([], ConfigurationValidator.TypeError) /\
  ConfigurationValidator.validate ToNumber schema ConfigurationValidator.JUndefined =
    ([], ConfigurationValidator.TypeError) /\
  (forall properties key elements d elementSchema element,
      missing_options schema (properties.*1) = [] ->
      (key, ConfigurationValidator.JArr elements) ∈ properties ->
      ConfigurationValidator.schema_get schema key = Some d ->
      plain_array d elementSchema ->
      element ∈ elements ->
      ConfigurationValidator.is_nullish element = true ->
      snd (ConfigurationValidator.validate ToNumber schema
             (ConfigurationValidator.JObj properties)) =
      ConfigurationValidator.TypeError).
Proof.
  unfold ConfigurationValidator.validate.
  destruct (ConfigurationValidator.schema_depth schema) as [|n] eqn:Edepth;
    [discriminate|].
  split; [reflexivity|]. split; [reflexivity|].
  intros properties key elements d elementSchema element
         Hnone Hgiven Hget (Htype & Hoptions & Hmin & Hmax & Hpattern & Hsub)
         Helement Hnull.
  pose proof (ValidatorFacts.schema_get_depth _ _ _ _ Hget Hsub) as Hdepth.
  rewrite Edepth in Hdepth.
  destruct n as [|n]; [unfold ConfigurationValidator.schema_depth in Hdepth; lia|].
  assert (Hrec : forall v sub p,
            (ConfigurationValidator.schema_depth sub <
             ConfigurationValidator.schema_depth schema)%nat ->
            within_budget (ConfigurationValidator._validateSubSchema ToNumber (S n) v sub p)).
  { intros v sub p Hlt. apply ValidatorFacts.validateSubSchema_within_budget. lia. }
  cbn [ConfigurationValidator._validateSubSchema].
  rewrite (ValidatorFacts.checkForMissingOptions_none ToNumber _ _ _ (properties.*1))
    by (reflexivity || exact Hnone).
  rewrite ValidatorFacts.bind_ret_l.
  unfold ConfigurationValidator._validatePresentOptions.
  cbn [ConfigurationValidator.Object_entries].
  apply list_elem_of_split in Hgiven as (before & after & ->).
  apply ValidatorFacts.fold_throws.
  - (* the options before the array stay within the budget *)
    apply ValidatorFacts.within_budget_fold; [|discriminate].
    intros [k v] a _ Ha. apply ValidatorFacts.within_budget_bind; [exact Ha|].
    intros isValid. apply ValidatorFacts.check_option_within_budget. exact Hrec.
  - (* the array *)
    intros a Ha. unfold ConfigurationValidator.bind.
    destruct (snd a) as [isValid| |] eqn:Ea; [|reflexivity|contradiction].
    cbn [snd]. unfold ConfigurationValidator.check_option.
    cbn [ConfigurationValidator.is_nullish].
    rewrite (ValidatorFacts.schema_get_includes _ _ _ Hget), Hget.
    cbn [negb]. cbv zeta. unfold ConfigurationValidator.type_differs.
    rewrite Htype, Hoptions, Hmin, Hmax, Hpattern, Hsub.
    cbn [ConfigurationValidator._getType ConfigurationValidator.below
         ConfigurationValidator.above].
    rewrite (bool_decide_eq_true_2 (Some "array" = Some "array")) by reflexivity.
    rewrite (bool_decide_eq_false_2 (Some "array" = Some "object")) by discriminate.
    cbn [negb].
    apply list_elem_of_split in Helement as (ebefore & eafter & ->).
    rewrite imap_app, imap_cons.
    apply ValidatorFacts.fold_throws.
    + apply ValidatorFacts.within_budget_fold; [|discriminate].
      intros [i e] b _ Hb. apply ValidatorFacts.within_budget_bind; [exact Hb|].
      intros v. apply ValidatorFacts.within_budget_bind; [|discriminate].
      apply Hrec. lia.
    + intros b Hb. unfold ConfigurationValidator.bind at 1.
      destruct (snd b) as [v| |] eqn:Eb; [|reflexivity|contradiction].
      cbn [snd]. destruct element; try discriminate Hnull; reflexivity.
    + intros b [i e] Hb. apply ValidatorFacts.thrown_bind. exact Hb.
  - intros a [k v] Ha. apply ValidatorFacts.thrown_bind. exact Ha.
Qed.

(** A list of streams with a hole in it: the validator raises. *)
Example null_stream_raises :
  snd (ConfigurationValidator.validate no_number
         [("streams", array_of [("url", number_between 1 10)])]
         (ConfigurationValidator.JObj
            [("streams",
              ConfigurationValidator.JArr
                [ConfigurationValidator.JObj [("url", ConfigurationValidator.JNum 3)];
                 ConfigurationValidator.JNull])])) =
  ConfigurationValidator.TypeError.
Proof. reflexivity. Qed.
